(** * Netpbm: the PPM colour raster engine

    A shallow embedding of the PPM part of the Go package [Netpbm]
    (type [PPM] and its methods), followed by the properties checked
    against it.

    Conventions of the embedding:
    - Go [int] is a 64-bit signed integer: a [Z] whose arithmetic wraps
      around ([wrap64]);
    - Go [uint8] / [byte] is [Byte.byte]; [u8] reads it as a number and
      [uint8] converts a number back, modulo 256;
    - Go [float64] is [spec_float] with the IEEE 754 binary64 parameters,
      operations rounding to nearest even and never fused;
    - Go strings, [[]byte] and file contents are [list byte];
    - [[][]Pixel] is a list of rows; indexing outside a slice is the
      run-time panic it is in Go;
    - a method with receiver [*PPM] becomes a function returning the
      updated [PPM] inside [outcome]. *)

From Stdlib Require Import Reals Lra.
From Stdlib Require Import ZArith List String Lia Bool SpecFloat.
From Stdlib Require Import Strings.Byte.
Import ListNotations.
Local Open Scope Z_scope.

(** ** Go integers *)

Definition wrap64 (z : Z) : Z := (z + 2 ^ 63) mod 2 ^ 64 - 2 ^ 63.

Definition add64 (a b : Z) : Z := wrap64 (a + b).
Definition sub64 (a b : Z) : Z := wrap64 (a - b).
Definition mul64 (a b : Z) : Z := wrap64 (a * b).
Definition neg64 (a : Z) : Z := wrap64 (- a).
(** Go's [/] truncates towards zero; the callers check the divisor. *)
Definition quot64 (a b : Z) : Z := wrap64 (Z.quot a b).

Notation "a +! b" := (add64 a b) (at level 50, left associativity).
Notation "a -! b" := (sub64 a b) (at level 50, left associativity).
Notation "a *! b" := (mul64 a b) (at level 40, left associativity).
Notation "a /! b" := (quot64 a b) (at level 40, left associativity).

Definition max_int : Z := 2 ^ 63 - 1.
Definition min_int : Z := - 2 ^ 63.

Definition u8 (b : byte) : Z := Z.of_N (Byte.to_N b).

Definition uint8 (z : Z) : byte :=
  match Byte.of_N (Z.to_N (z mod 256)) with
  | Some b => b
  | None => x00
  end.

(** ** Results of running Go code *)

(** The panics this code can raise. *)
Inductive panic : Type :=
| IndexOutOfBounds                 (* panic("Index out of bounds") *)
| RuntimeIndex (i len : Z)         (* runtime error: index out of range [i] with length len *)
| DivideByZero                     (* runtime error: integer divide by zero *)
| MakeSliceLen.                    (* runtime error: makeslice: len out of range *)

(** What [fmt.Sscanf] reports. [OutOfInput] stands for both [io.EOF] and
    [io.ErrUnexpectedEOF]. *)
Inductive scan_error : Type :=
| ExpectedInteger                  (* "expected integer" *)
| OutOfInput
| ValueOutOfRange                  (* strconv: value out of range *)
| IntegerOverflow                  (* "(unsigned) integer overflow on token ..." *)
| UnexpectedNewline                (* "unexpected newline" *)
| ExpectedSpace                    (* "expected space in input to match format" *)
| NewlineInInput.                  (* "newline in input does not match format" *)

(** The [error] values built by [ReadPPM] and [Save], one constructor per
    [fmt.Errorf] call, with the arguments of its format. *)
Inductive error : Type :=
| ErrReadingMagic                          (* "error reading magic number: %v" *)
| InvalidMagic (magic : list byte)         (* "invalid magic number: %s" *)
| ErrReadingDimensions                     (* "error reading dimensions: %v" *)
| InvalidDimensions (e : scan_error)       (* "invalid dimensions: %v" *)
| NonPositiveDimensions                    (* "invalid dimensions: width and height must be positive" *)
| ErrReadingMax                            (* "error reading max value: %v" *)
| InvalidMax (e : scan_error)              (* "invalid max value: %v" *)
| ErrReadingRow (y : Z)                    (* "error reading data at row %d: %v" *)
| FieldsOutOfRange (y x : Z)               (* "index out of range at row %d, column %d" *)
| ErrParsingRed (y x : Z) (e : scan_error)   (* "error parsing Red value at row %d, column %d: %v" *)
| ErrParsingGreen (y x : Z) (e : scan_error) (* "error parsing Green value at row %d, column %d: %v" *)
| ErrParsingBlue (y x : Z) (e : scan_error)  (* "error parsing Blue value at row %d, column %d: %v" *)
| UnexpectedEOFAtRow (y : Z)               (* "unexpected end of file at row %d" *)
| ShortRow (y expected got : Z)            (* "unexpected end of file at row %d, expected %d bytes, got %d" *)
| MagicNumberError.                        (* "magic number error" *)

Inductive outcome (A : Type) : Type :=
| Ok (a : A)              (* normal return *)
| Err (e : error)         (* return with a non-nil error; no value *)
| Panic (p : panic)       (* run-time panic *)
| Unspecified             (* the Go specification leaves the result to the implementation *)
| OutOfFuel.              (* the loop or recursion outlived the fuel it was given *)

Arguments Ok {A} a.
Arguments Err {A} e.
Arguments Panic {A} p.
Arguments Unspecified {A}.
Arguments OutOfFuel {A}.

Definition bind {A B : Type} (m : outcome A) (k : A -> outcome B) : outcome B :=
  match m with
  | Ok a => k a
  | Err e => Err e
  | Panic p => Panic p
  | Unspecified => Unspecified
  | OutOfFuel => OutOfFuel
  end.

Notation "x <- m ;; k" := (bind m (fun x => k))
  (at level 61, m at next level, right associativity).
Notation "' pat <- m ;; k" := (bind m (fun x => match x with pat => k end))
  (at level 61, pat pattern, m at next level, right associativity).

(** [for i := lo; i < hi; i++ { s = body i s }] *)
Fixpoint for_loop {S : Type} (n : nat) (i : Z) (body : Z -> S -> outcome S) (s : S)
  : outcome S :=
  match n with
  | O => Ok s
  | Datatypes.S n' => s' <- body i s ;; for_loop n' (i + 1) body s'
  end.

Definition for_range {S : Type} (lo hi : Z) (body : Z -> S -> outcome S) (s : S)
  : outcome S :=
  for_loop (Z.to_nat (hi - lo)) lo body s.

(** ** Slices *)

Definition len {A : Type} (l : list A) : Z := Z.of_nat (List.length l).

(** [l[i]] *)
Definition index {A : Type} (l : list A) (i : Z) : outcome A :=
  if (i <? 0) || (len l <=? i) then Panic (RuntimeIndex i (len l))
  else match nth_error l (Z.to_nat i) with
       | Some a => Ok a
       | None => Panic (RuntimeIndex i (len l))
       end.

Definition update {A : Type} (l : list A) (n : nat) (v : A) : list A :=
  firstn n l ++ v :: skipn (Datatypes.S n) l.

(** [l[i] = v] *)
Definition store {A : Type} (l : list A) (i : Z) (v : A) : outcome (list A) :=
  if (i <? 0) || (len l <=? i) then Panic (RuntimeIndex i (len l))
  else Ok (update l (Z.to_nat i) v).

(** [make([]T, n)], every element the zero value of [T] *)
Definition make {A : Type} (zero : A) (n : Z) : outcome (list A) :=
  if n <? 0 then Panic MakeSliceLen else Ok (repeat zero (Z.to_nat n)).

(** ** The data model *)

Record Pixel : Type := mkPixel { R : byte; G : byte; B : byte }.

Record Point : Type := mkPoint { X : Z; Y : Z }.

Record PPM : Type := mkPPM {
  data : list (list Pixel);
  width : Z;
  height : Z;
  magicNumber : list byte;
  max : byte
}.

Definition zeroPixel : Pixel := mkPixel x00 x00 x00.

Definition with_data (ppm : PPM) (d : list (list Pixel)) : PPM :=
  mkPPM d (width ppm) (height ppm) (magicNumber ppm) (max ppm).

(** [d[y][x]] *)
Definition get2 (d : list (list Pixel)) (y x : Z) : outcome Pixel :=
  row <- index d y ;; index row x.

(** [d[y][x] = v] *)
Definition put2 (d : list (list Pixel)) (y x : Z) (v : Pixel) : outcome (list (list Pixel)) :=
  row <- index d y ;;
  row' <- store row x v ;;
  store d y row'.

(** The shape every constructor of a [PPM] in the package establishes. *)
Definition shape_ok (ppm : PPM) : Prop :=
  len (data ppm) = height ppm /\
  Forall (fun row => len row = width ppm) (data ppm).

Definition wf (ppm : PPM) : Prop :=
  shape_ok ppm /\ 0 < width ppm /\ 0 < height ppm.

(** ** Pixel access *)

Definition At (ppm : PPM) (x y : Z) : outcome Pixel :=
  if (x <? 0) || (width ppm <=? x) || (y <? 0) || (height ppm <=? y)
  then Panic IndexOutOfBounds
  else get2 (data ppm) y x.

Definition Set_ (ppm : PPM) (x y : Z) (value : Pixel) : outcome PPM :=
  if (x <? 0) || (width ppm <=? x) || (y <? 0) || (height ppm <=? y)
  then Panic IndexOutOfBounds
  else d <- put2 (data ppm) y x value ;; Ok (with_data ppm d).

Definition SetPixel (ppm : PPM) (p : Point) (color : Pixel) : outcome PPM :=
  if (0 <=? X p) && (X p <? width ppm) && (0 <=? Y p) && (Y p <? height ppm)
  then d <- put2 (data ppm) (Y p) (X p) color ;; Ok (with_data ppm d)
  else Ok ppm.

(** ** Invert *)

Definition invertPixel (p : Pixel) : Pixel :=
  mkPixel (uint8 (255 - u8 (R p))) (uint8 (255 - u8 (G p))) (uint8 (255 - u8 (B p))).

Definition Invert (ppm : PPM) : outcome PPM :=
  d <- for_range 0 (height ppm) (fun y d =>
         for_range 0 (width ppm) (fun x d =>
           pixel <- get2 d y x ;;
           put2 d y x (invertPixel pixel)) d) (data ppm) ;;
  Ok (with_data ppm d).

(** ** Go floating point *)

Definition float64 : Type := spec_float.

(** [float64(z)] for an [int] [z] *)
Definition float64_of_int (z : Z) : float64 := binary_normalize 53 1024 z 0 false.

Definition fadd : float64 -> float64 -> float64 := SFadd 53 1024.
Definition fsub : float64 -> float64 -> float64 := SFsub 53 1024.
Definition fmul : float64 -> float64 -> float64 := SFmul 53 1024.
Definition fdiv : float64 -> float64 -> float64 := SFdiv 53 1024.
Definition fsqrt : float64 -> float64 := SFsqrt 53 1024.

(** The integer part of the magnitude of a finite float. *)
Definition trunc_mag (m : positive) (e : Z) : Z :=
  if 0 <=? e then Zpos m * 2 ^ e else Zpos m / 2 ^ (- e).

(** [int(f)]: the fraction is discarded; a value that [int] cannot
    represent (also an infinity or a NaN) converts to an
    implementation-dependent value. *)
Definition int_of_float64 (f : float64) : outcome Z :=
  match f with
  | S754_zero _ => Ok 0
  | S754_finite s m e =>
      let v := if s then - trunc_mag m e else trunc_mag m e in
      if (min_int <=? v) && (v <=? max_int) then Ok v else Unspecified
  | S754_infinity _ | S754_nan => Unspecified
  end.

(** ** Lines and outlines *)

Definition DrawLinetool (x : Z) : Z :=
  if x <? 0 then neg64 x else x.

(** The [for { ... }] loop of [DrawLine]; [fuel] bounds its iterations. *)
Fixpoint DrawLine_loop (fuel : nat) (ppm : PPM) (x1 y1 x2 y2 dx dy sx sy err : Z)
  (color : Pixel) : outcome PPM :=
  match fuel with
  | O => OutOfFuel
  | Datatypes.S fuel' =>
      ppm <- SetPixel ppm (mkPoint x1 y1) color ;;
      if (x1 =? x2) && (y1 =? y2) then Ok ppm
      else
        let e2 := 2 *! err in
        let '(err, x1) := if neg64 dy <? e2 then (err -! dy, x1 +! sx) else (err, x1) in
        let '(err, y1) := if e2 <? dx then (err +! dx, y1 +! sy) else (err, y1) in
        DrawLine_loop fuel' ppm x1 y1 x2 y2 dx dy sx sy err color
  end.

Definition DrawLine (fuel : nat) (ppm : PPM) (p1 p2 : Point) (color : Pixel) : outcome PPM :=
  let x1 := X p1 in let y1 := Y p1 in
  let x2 := X p2 in let y2 := Y p2 in
  let dx := DrawLinetool (x2 -! x1) in
  let dy := DrawLinetool (y2 -! y1) in
  let sx := if x1 <? x2 then 1 else -1 in
  let sy := if y1 <? y2 then 1 else -1 in
  let err := dx -! dy in
  DrawLine_loop fuel ppm x1 y1 x2 y2 dx dy sx sy err color.

Definition DrawTriangle (fuel : nat) (ppm : PPM) (p1 p2 p3 : Point) (color : Pixel)
  : outcome PPM :=
  ppm <- DrawLine fuel ppm p1 p2 color ;;
  ppm <- DrawLine fuel ppm p2 p3 color ;;
  DrawLine fuel ppm p3 p1 color.

(** ** Filled triangle *)

Definition FilledTriangleTools (p1 p2 : Point) (y : Z) : float64 :=
  fadd (float64_of_int (X p1))
       (fmul (float64_of_int (y -! Y p1))
             (fdiv (float64_of_int (X p2 -! X p1)) (float64_of_int (Y p2 -! Y p1)))).

(** [sort.Slice] on a slice of fewer than 12 elements is an insertion
    sort: each element moves left while it is less than the one before it.
    [sink v before] takes the elements before [v], nearest first, and
    returns the new prefix in the same (reversed) order. *)
Fixpoint sink (v : Point) (before : list Point) : list Point :=
  match before with
  | [] => [v]
  | u :: rest => if Y v <? Y u then u :: sink v rest else v :: u :: rest
  end.

Definition sortByY (vertices : list Point) : list Point :=
  rev (fold_left (fun before v => sink v before) vertices []).

Definition DrawFilledTriangle (fuel : nat) (ppm : PPM) (p1 p2 p3 : Point) (color : Pixel)
  : outcome PPM :=
  match sortByY [p1; p2; p3] with
  | [v0; v1; v2] =>
      (* [y <= vertices[2].Y] never fails when that is the largest int *)
      if Y v2 =? max_int then OutOfFuel
      else
        for_range (Y v0) (Y v2 + 1) (fun y ppm =>
          let x1 := FilledTriangleTools v0 v2 y in
          let x2 := FilledTriangleTools v1 v2 y in
          ix1 <- int_of_float64 x1 ;;
          ix2 <- int_of_float64 x2 ;;
          DrawLine fuel ppm (mkPoint ix1 y) (mkPoint ix2 y) color) ppm
  | _ => Ok ppm
  end.

(** ** Filled rectangle *)

(** [for x := lo; x < hi; x++ { ppm.data[y][x] = color }] *)
Definition fillRow (d : list (list Pixel)) (y lo hi : Z) (color : Pixel)
  : outcome (list (list Pixel)) :=
  for_range lo hi (fun x d => put2 d y x color) d.

Definition DrawFilledRectangle (ppm : PPM) (p1 : Point) (width_ height_ : Z) (color : Pixel)
  : outcome PPM :=
  let row (y : Z) (d : list (list Pixel)) : outcome (list (list Pixel)) :=
    if X p1 +! width_ <? width ppm then
      (* [x <= p1.X+width] *)
      fillRow d y (X p1) (X p1 +! width_ + 1) color
    else if width ppm <? X p1 +! width_ then
      fillRow d y (X p1) (width ppm) color
    else Ok d in
  d <- (if Y p1 +! height_ <? height ppm then
          for_range (Y p1) (Y p1 +! height_) row (data ppm)
        else if height ppm <? Y p1 +! height_ then
          for_range (Y p1) (height ppm) row (data ppm)
        else Ok (data ppm)) ;;
  Ok (with_data ppm d).

(** ** Koch snowflake *)

Section Fractals.

(** [math.Cos(math.Pi / 3)] and [math.Sin(math.Pi / 3)], whose last bits
    depend on the math library. *)
Variables cos sin : float64.

(** [fuel] bounds every line loop, [depth] the recursion; a negative [n]
    recurses for ever. *)
Fixpoint KochSnowflake (fuel depth : nat) (ppm : PPM) (n : Z) (point1 point2 : Point)
  (color : Pixel) : outcome PPM :=
  if n =? 0 then DrawLine fuel ppm point1 point2 color
  else
    match depth with
    | O => OutOfFuel
    | Datatypes.S depth' =>
        let p_1 := mkPoint (X point1 +! (X point2 -! X point1) /! 3)
                           (Y point1 +! (Y point2 -! Y point1) /! 3) in
        let p_2 := mkPoint (X point1 +! 2 *! (X point2 -! X point1) /! 3)
                           (Y point1 +! 2 *! (Y point2 -! Y point1) /! 3) in
        let fx := float64_of_int (X p_1 -! X p_2) in
        let fy := float64_of_int (Y p_1 -! Y p_2) in
        x3 <- int_of_float64 (fsub (fmul fx cos) (fmul fy sin)) ;;
        y3 <- int_of_float64 (fadd (fmul fx sin) (fmul fy cos)) ;;
        let p3 := mkPoint (x3 +! X p_2) (y3 +! Y p_2) in
        ppm <- KochSnowflake fuel depth' ppm (n -! 1) point1 p_1 color ;;
        ppm <- KochSnowflake fuel depth' ppm (n -! 1) p_1 p3 color ;;
        ppm <- KochSnowflake fuel depth' ppm (n -! 1) p3 p_2 color ;;
        KochSnowflake fuel depth' ppm (n -! 1) p_2 point2 color
    end.

(** [int(math.Sqrt(3) * float64(size) / 2)] *)
Definition triangleHeight (size : Z) : outcome Z :=
  int_of_float64
    (fdiv (fmul (fsqrt (float64_of_int 3)) (float64_of_int size)) (float64_of_int 2)).

Definition DrawKochSnowflake (fuel depth : nat) (ppm : PPM) (n : Z) (start : Point)
  (size : Z) (color : Pixel) : outcome PPM :=
  height_ <- triangleHeight size ;;
  let point1 := start in
  let point2 := mkPoint (X start +! size) (Y start) in
  let point3 := mkPoint (X start +! size /! 2) (Y start +! height_) in
  ppm <- KochSnowflake fuel depth ppm n point1 point2 color ;;
  ppm <- KochSnowflake fuel depth ppm n point2 point3 color ;;
  KochSnowflake fuel depth ppm n point3 point1 color.

End Fractals.

(** ** Resize by neighbourhood average *)

(** The body of the two loops of [findKNearestNeighbors]. *)
Definition visitNeighbor (ppm : PPM) (x y dy dx : Z) (neighbors : list Pixel)
  : outcome (list Pixel) :=
  let nx := x +! dx in
  let ny := y +! dy in
  if (0 <=? nx) && (nx <? width ppm) && (0 <=? ny) && (ny <? height ppm)
  then p <- get2 (data ppm) ny nx ;; Ok (neighbors ++ [p])
  else Ok neighbors.

Definition findKNearestNeighbors (ppm : PPM) (x y : Z) : outcome (list Pixel) :=
  for_range (-1) 2 (fun dy neighbors =>
    for_range (-1) 2 (fun dx neighbors =>
      visitNeighbor ppm x y dy dx neighbors) neighbors) [].

Definition averageColors (pixels : list Pixel) : outcome Pixel :=
  let totalR := fold_left (fun t p => t +! u8 (R p)) pixels 0 in
  let totalG := fold_left (fun t p => t +! u8 (G p)) pixels 0 in
  let totalB := fold_left (fun t p => t +! u8 (B p)) pixels 0 in
  let count := len pixels in
  if count =? 0 then Panic DivideByZero
  else Ok (mkPixel (uint8 (totalR /! count)) (uint8 (totalG /! count))
                   (uint8 (totalB /! count))).

(** [make([][]Pixel, h)] followed by [make([]Pixel, w)] for every row *)
Definition makeGrid (w h : Z) : outcome (list (list Pixel)) :=
  rows <- make (@nil Pixel) h ;;
  for_range 0 (len rows) (fun i rows =>
    row <- make zeroPixel w ;; store rows i row) rows.

(** The second component is what the call printed on standard output. *)
Definition KNearestNeighbors (ppm : PPM) (newWidth newHeight : Z)
  : outcome (PPM * list string) :=
  if (newWidth <=? 0) || (newHeight <=? 0)
  then Ok (ppm, ["Invalid dimensions for resizing."%string])
  else
    let scaleX := fdiv (float64_of_int (width ppm)) (float64_of_int newWidth) in
    let scaleY := fdiv (float64_of_int (height ppm)) (float64_of_int newHeight) in
    resizedData <- makeGrid newWidth newHeight ;;
    resizedData <-
      for_range 0 newHeight (fun y resizedData =>
        for_range 0 newWidth (fun x resizedData =>
          originalX <- int_of_float64 (fmul (float64_of_int x) scaleX) ;;
          originalY <- int_of_float64 (fmul (float64_of_int y) scaleY) ;;
          neighbors <- findKNearestNeighbors ppm originalX originalY ;;
          averageColor <- averageColors neighbors ;;
          put2 resizedData y x averageColor) resizedData) resizedData ;;
    Ok (mkPPM resizedData newWidth newHeight (magicNumber ppm) (max ppm), []).

(** ** Text *)

(** String literals as Go strings. *)
Definition lit (s : string) : list byte := list_byte_of_string s.

Definition nl : byte := x0a.

Definition bytes_eqb (a b : list byte) : bool :=
  if list_eq_dec Byte.byte_eq_dec a b then true else false.

(** White space of [strings.TrimSpace], [strings.Fields] and [fmt]'s
    scanner, restricted to the one-byte characters: tab, line feed,
    vertical tab, form feed, carriage return and space. *)
Definition isSpace (c : byte) : bool :=
  match c with
  | x09 | x0a | x0b | x0c | x0d | x20 => true
  | _ => false
  end.

Definition isDigit (c : byte) : bool := (48 <=? u8 c) && (u8 c <=? 57).

Fixpoint dropWhile {A : Type} (p : A -> bool) (l : list A) : list A :=
  match l with
  | [] => []
  | a :: l' => if p a then dropWhile p l' else l
  end.

Fixpoint span {A : Type} (p : A -> bool) (l : list A) : list A * list A :=
  match l with
  | [] => ([], [])
  | a :: l' => if p a then let '(t, r) := span p l' in (a :: t, r) else ([], l)
  end.

Definition TrimSpace (s : list byte) : list byte :=
  rev (dropWhile isSpace (rev (dropWhile isSpace s))).

(** [strings.Fields]: the maximal runs of non-space characters; [cur] is
    the run being read, last character first. *)
Fixpoint Fields_from (cur : list byte) (s : list byte) : list (list byte) :=
  match s with
  | [] => match cur with [] => [] | _ => [rev cur] end
  | c :: s' =>
      if isSpace c
      then match cur with [] => Fields_from [] s' | _ => rev cur :: Fields_from [] s' end
      else Fields_from (c :: cur) s'
  end.

Definition Fields (s : list byte) : list (list byte) := Fields_from [] s.

(** *** Printing with [%d] *)

Definition digit (d : Z) : byte := uint8 (48 + d).

Fixpoint utoa_from (fuel : nat) (n : Z) (acc : list byte) : list byte :=
  match fuel with
  | O => acc
  | Datatypes.S fuel' =>
      let acc' := digit (n mod 10) :: acc in
      if n <? 10 then acc' else utoa_from fuel' (n / 10) acc'
  end.

(** A number has no more decimal than binary digits. *)
Definition utoa (n : Z) : list byte :=
  utoa_from (Datatypes.S (Z.to_nat (Z.log2 n))) n [].

Definition itoa (z : Z) : list byte :=
  if z <? 0 then x2d :: utoa (- z) else utoa z.

(** *** Scanning with [%d] *)

Definition parseDecimal (tok : list byte) : Z :=
  fold_left (fun a c => a * 10 + (u8 c - 48)) tok 0.

(** [ss.SkipSpace] of a scanner for which a newline is not a space. *)
Fixpoint skipSpace (s : list byte) : scan_error + list byte :=
  match s with
  | [] => inr []
  | c :: s' =>
      if Byte.eqb c nl then inl UnexpectedNewline
      else if isSpace c then skipSpace s'
      else inr s
  end.

(** [ss.scanNumber]: at least one digit, then as many as follow. *)
Definition scanNumber (s : list byte) : scan_error + (list byte * list byte) :=
  match s with
  | [] => inl OutOfInput
  | c :: _ => if isDigit c then inr (span isDigit s) else inl ExpectedInteger
  end.

(** [%d] into an [int] *)
Definition scanInt (s : list byte) : scan_error + (Z * list byte) :=
  match skipSpace s with
  | inl e => inl e
  | inr [] => inl OutOfInput
  | inr ((c :: s') as s0) =>
      let '(negative, s1) :=
        if Byte.eqb c x2b then (false, s')
        else if Byte.eqb c x2d then (true, s')
        else (false, s0) in
      match scanNumber s1 with
      | inl e => inl e
      | inr (tok, rest) =>
          let v := if negative then - parseDecimal tok else parseDecimal tok in
          if (min_int <=? v) && (v <=? max_int) then inr (v, rest)
          else inl ValueOutOfRange
      end
  end.

(** [%d] into a [uint8] *)
Definition scanUint8 (s : list byte) : scan_error + (byte * list byte) :=
  match skipSpace s with
  | inl e => inl e
  | inr [] => inl OutOfInput
  | inr s0 =>
      match scanNumber s0 with
      | inl e => inl e
      | inr (tok, rest) =>
          let v := parseDecimal tok in
          if 2 ^ 64 <=? v then inl ValueOutOfRange
          else if 256 <=? v then inl IntegerOverflow
          else inr (uint8 v, rest)
      end
  end.

(** A space in the format: end of input, or at least one space that is
    not a newline; the spaces that follow are skipped up to a newline. *)
Definition matchSpace (s : list byte) : scan_error + list byte :=
  match s with
  | [] => inr []
  | c :: _ =>
      if negb (isSpace c) then inl ExpectedSpace
      else if Byte.eqb c nl then inl NewlineInInput
      else inr (dropWhile (fun c => isSpace c && negb (Byte.eqb c nl)) s)
  end.

(** [fmt.Sscanf(s, "%d %d", &width, &height)]; input left over is ignored. *)
Definition Sscanf_d_d (s : list byte) : scan_error + (Z * Z) :=
  match scanInt s with
  | inl e => inl e
  | inr (w, s1) =>
      match matchSpace s1 with
      | inl e => inl e
      | inr s2 =>
          match scanInt s2 with
          | inl e => inl e
          | inr (h, _) => inr (w, h)
          end
      end
  end.

(** [fmt.Sscanf(s, "%d", &v)] for a [uint8] [v] *)
Definition Sscanf_d (s : list byte) : scan_error + byte :=
  match scanUint8 s with
  | inl e => inl e
  | inr (v, _) => inr v
  end.

(** ** Buffered reading of a file *)

(** A [bufio.Reader] over an [os.File]: the bytes it holds and has not
    handed out, and the part of the file it has not read. The file is a
    regular file: reading [n > 0] bytes yields as many as remain, up to
    [n], and [io.EOF] when none does. *)
Record Reader : Type := mkReader { buffered : list byte; rest : list byte }.

(** [bufio.NewReader] gives the buffer its default size. *)
Definition bufSize : nat := 4096.

Definition NewReader (file : list byte) : Reader := mkReader [] file.

Fixpoint indexByte (c : byte) (s : list byte) : option nat :=
  match s with
  | [] => None
  | b :: s' => if Byte.eqb b c then Some O
               else match indexByte c s' with
                    | Some i => Some (Datatypes.S i)
                    | None => None
                    end
  end.

(** [bufio.Reader.ReadString]: searches the buffer; when the delimiter
    is not there, a full buffer is set aside and emptied, otherwise the
    free part of the buffer is filled by one read of the file; at the end
    of the file what was gathered comes back with [io.EOF] (the flag). *)
Fixpoint ReadString_from (fuel : nat) (delim : byte) (acc : list byte) (r : Reader)
  : option (list byte * bool * Reader) :=
  match fuel with
  | O => None
  | Datatypes.S fuel' =>
      match indexByte delim (buffered r) with
      | Some i =>
          Some (acc ++ firstn (Datatypes.S i) (buffered r), false,
                mkReader (skipn (Datatypes.S i) (buffered r)) (rest r))
      | None =>
          if (bufSize <=? List.length (buffered r))%nat
          then ReadString_from fuel' delim (acc ++ buffered r) (mkReader [] (rest r))
          else
            match rest r with
            | [] => Some (acc ++ buffered r, true, mkReader [] [])
            | _ =>
                let n := (bufSize - List.length (buffered r))%nat in
                ReadString_from fuel' delim acc
                  (mkReader (buffered r ++ firstn n (rest r)) (skipn n (rest r)))
            end
      end
  end.

Definition ReadString (delim : byte) (r : Reader) : outcome (list byte * bool * Reader) :=
  match ReadString_from (2 * List.length (rest r) + 2) delim [] r with
  | Some res => Ok res
  | None => OutOfFuel
  end.

(** [bufio.Reader.Read] into a slice of [n] bytes: the bytes come from
    the buffer when it holds any, else from at most one read of the file
    (into the slice itself when it is at least as large as the buffer),
    so fewer than [n] may come back. *)
Definition Read (n : Z) (r : Reader) : list byte * bool * Reader :=
  if n =? 0 then ([], false, r)
  else
    match buffered r with
    | [] =>
        match rest r with
        | [] => ([], true, r)
        | _ =>
            if Z.of_nat bufSize <=? n
            then (firstn (Z.to_nat n) (rest r), false,
                  mkReader [] (skipn (Z.to_nat n) (rest r)))
            else
              let b := firstn bufSize (rest r) in
              (firstn (Z.to_nat n) b, false,
               mkReader (skipn (Z.to_nat n) b) (skipn bufSize (rest r)))
        end
    | b => (firstn (Z.to_nat n) b, false, mkReader (skipn (Z.to_nat n) b) (rest r))
    end.

(** ** Decoding: [ReadPPM] *)

Definition isP3 (magic : list byte) : bool := bytes_eqb magic (lit "P3").
Definition isP6 (magic : list byte) : bool := bytes_eqb magic (lit "P6").

(** One row of the textual variant, from the fields of its line. *)
Definition readRowP3 (fields : list (list byte)) (width_ y : Z) : outcome (list Pixel) :=
  rowData <- make zeroPixel width_ ;;
  for_range 0 width_ (fun x rowData =>
    if len fields <=? x *! 3 +! 2 then Err (FieldsOutOfRange y x)
    else
      fr <- index fields (x *! 3) ;;
      match Sscanf_d fr with
      | inl e => Err (ErrParsingRed y x e)
      | inr r =>
          fg <- index fields (x *! 3 +! 1) ;;
          match Sscanf_d fg with
          | inl e => Err (ErrParsingGreen y x e)
          | inr g =>
              fb <- index fields (x *! 3 +! 2) ;;
              match Sscanf_d fb with
              | inl e => Err (ErrParsingBlue y x e)
              | inr b => store rowData x (mkPixel r g b)
              end
          end
      end) rowData.

(** One row of the binary variant, from the bytes of the row. *)
Definition readRowP6 (row : list byte) (width_ : Z) : outcome (list Pixel) :=
  rowData <- make zeroPixel width_ ;;
  for_range 0 width_ (fun x rowData =>
    r <- index row (x *! 3) ;;
    g <- index row (x *! 3 +! 1) ;;
    b <- index row (x *! 3 +! 2) ;;
    store rowData x (mkPixel r g b)) rowData.

Definition ReadPPM (file : list byte) : outcome PPM :=
  let reader := NewReader file in
  (* Magic number *)
  '(magicNumber_, eof, reader) <- ReadString nl reader ;;
  if eof : bool then Err ErrReadingMagic
  else
  let magicNumber_ := TrimSpace magicNumber_ in
  if negb (isP3 magicNumber_) && negb (isP6 magicNumber_)
  then Err (InvalidMagic magicNumber_)
  else
  (* Size *)
  '(dimensions, eof, reader) <- ReadString nl reader ;;
  if eof : bool then Err ErrReadingDimensions
  else
  match Sscanf_d_d (TrimSpace dimensions) with
  | inl e => Err (InvalidDimensions e)
  | inr (width_, height_) =>
  if (width_ <=? 0) || (height_ <=? 0) then Err NonPositiveDimensions
  else
  (* Max value *)
  '(maxValue, eof, reader) <- ReadString nl reader ;;
  if eof : bool then Err ErrReadingMax
  else
  match Sscanf_d (TrimSpace maxValue) with
  | inl e => Err (InvalidMax e)
  | inr max_ =>
  data_ <- make (@nil Pixel) height_ ;;
  '(data_, _) <-
    (if isP3 magicNumber_ then
       for_range 0 height_ (fun y st =>
         let '(data_, reader) := st in
         '(line, eof, reader) <- ReadString nl reader ;;
         if eof : bool then Err (ErrReadingRow y)
         else
           rowData <- readRowP3 (Fields line) width_ y ;;
           data_ <- store data_ y rowData ;;
           Ok (data_, reader)) (data_, reader)
     else if isP6 magicNumber_ then
       for_range 0 height_ (fun y st =>
         let '(data_, reader) := st in
         row <- make x00 (width_ *! 3) ;;
         let '(got, eof, reader) := Read (len row) reader in
         if eof : bool then Err (UnexpectedEOFAtRow y)
         else
           let n := len got in
           if n <? width_ *! 3 then Err (ShortRow y (width_ *! 3) n)
           else
             let row := got ++ skipn (List.length got) row in
             rowData <- readRowP6 row width_ ;;
             data_ <- store data_ y rowData ;;
             Ok (data_, reader)) (data_, reader)
     else Ok (data_, reader)) ;;
  Ok (mkPPM data_ width_ height_ magicNumber_ max_)
  end
  end.

(** ** Encoding: [Save] *)

(** The bytes written to the created file. *)
Definition Save (ppm : PPM) : outcome (list byte) :=
  let magic := magicNumber ppm in
  if isP6 magic || isP3 magic then
    let header := magic ++ [nl] ++ itoa (width ppm) ++ lit " " ++ itoa (height ppm) ++ [nl]
                  ++ itoa (u8 (max ppm)) ++ [nl] in
    for_range 0 (height ppm) (fun y out =>
      out <- for_range 0 (width ppm) (fun x out =>
               pixel <- get2 (data ppm) y x ;;
               if isP6 magic then Ok (out ++ [R pixel; G pixel; B pixel])
               else if isP3 magic then
                 Ok (out ++ itoa (u8 (R pixel)) ++ lit " " ++ itoa (u8 (G pixel)) ++ lit " "
                         ++ itoa (u8 (B pixel)) ++ lit " ")
               else Ok out) out ;;
      if isP3 magic then Ok (out ++ [nl]) else Ok out) header
  else Err MagicNumberError.

(** ** Sample values *)

Definition black : Pixel := zeroPixel.
Definition red : Pixel := mkPixel xff x00 x00.
Definition green : Pixel := mkPixel x00 xff x00.
Definition blue : Pixel := mkPixel x00 x00 xff.
Definition white : Pixel := mkPixel xff xff xff.

(** A [w] by [h] image of one colour. *)
Definition solid (magic : list byte) (w h : nat) (c : Pixel) : PPM :=
  mkPPM (repeat (repeat c w) h) (Z.of_nat w) (Z.of_nat h) magic xff.

Definition header_2x2_P6 : list byte := lit "P6" ++ [nl] ++ lit "2 2" ++ [nl] ++ lit "255" ++ [nl].

Definition pixels_2x2 : list byte :=
  [xff; x00; x00;  x00; xff; x00;  x00; x00; xff;  xff; xff; xff].

(** ** Stored pixels *)

(** The pixel of column [x] in row [y], for the statements below. *)
Definition stored (d : list (list Pixel)) (x y : Z) : option Pixel :=
  if (x <? 0) || (y <? 0) then None
  else match nth_error d (Z.to_nat y) with
       | Some row => nth_error row (Z.to_nat x)
       | None => None
       end.

Definition in_canvas (ppm : PPM) (x y : Z) : Prop :=
  0 <= x < width ppm /\ 0 <= y < height ppm.

(** [mix j new old]: the first [j] elements of [new], then [old] from
    position [j] on: a slice whose first [j] positions were rewritten. *)
Definition mix {A : Type} (j : nat) (new old : list A) : list A :=
  firstn j new ++ skipn j old.

(** The vertices of the triangle that [DrawKochSnowflake] and
    [DrawSierpinskiTriangle] build from a corner and a side length. *)
Definition baseTriangle (start : Point) (size : Z) : outcome (Point * Point * Point) :=
  height_ <- triangleHeight size ;;
  Ok (start,
      mkPoint (X start +! size) (Y start),
      mkPoint (X start +! size /! 2) (Y start +! height_)).

(** A file of the textual variant with one pixel, and the same file with
    a comment line after the magic number. *)
Definition file_1x1_P3 : list byte :=
  lit "P3" ++ [nl] ++ lit "1 1" ++ [nl] ++ lit "255" ++ [nl] ++ lit "1 2 3 " ++ [nl].

Definition file_1x1_P3_commented : list byte :=
  lit "P3" ++ [nl] ++ lit "# a comment" ++ [nl] ++ lit "1 1" ++ [nl] ++ lit "255" ++ [nl]
  ++ lit "1 2 3 " ++ [nl].

(** Every pixel of the grid is [c]. *)
Definition uniform (d : list (list Pixel)) (c : Pixel) : Prop :=
  Forall (Forall (fun p => p = c)) d.

(** 1 when column [nx] of row [ny] is on the canvas, else 0. *)
Definition onCanvas (ppm : PPM) (nx ny : Z) : nat :=
  if (0 <=? nx) && (nx <? width ppm) && (0 <=? ny) && (ny <? height ppm)
  then 1%nat else 0%nat.

(** The largest size of an allocation on the 64-bit platforms of Go is
    [2^48] bytes: no slice has that many elements. *)
Definition maxAlloc : Z := 2 ^ 48.

(** The real numbers [2^e], [m * 2^e] and [2^-52], to bound what the
    floating-point operations return. *)
Definition p2 (e : Z) : Rdefinitions.R := powerRZ 2 e.

Definition fval (m : positive) (e : Z) : Rdefinitions.R := (IZR (Zpos m) * p2 e)%R.

Definition eps : Rdefinitions.R := (/ 4503599627370496)%R.

(** * Properties *)

(** ** Slices and loops *)

Lemma index_nth_error {A : Type} (l : list A) (n : nat) (a : A) :
  nth_error l n = Some a -> index l (Z.of_nat n) = Ok a.
Proof.
  intros H. unfold index, len.
  assert (n < List.length l)%nat by (apply nth_error_Some; congruence).
  destruct (Z.ltb_spec (Z.of_nat n) 0); [lia|].
  destruct (Z.leb_spec (Z.of_nat (List.length l)) (Z.of_nat n)); [lia|].
  simpl. rewrite Nat2Z.id, H. reflexivity.
Qed.

Lemma store_in_range {A : Type} (l : list A) (n : nat) (v : A) :
  (n < List.length l)%nat -> store l (Z.of_nat n) v = Ok (update l n v).
Proof.
  intros H. unfold store, len.
  destruct (Z.ltb_spec (Z.of_nat n) 0); [lia|].
  destruct (Z.leb_spec (Z.of_nat (List.length l)) (Z.of_nat n)); [lia|].
  simpl. rewrite Nat2Z.id. reflexivity.
Qed.

Lemma firstn_exact {A : Type} (l1 l2 : list A) :
  firstn (List.length l1) (l1 ++ l2) = l1.
Proof. induction l1 as [|a l1 IH]; simpl; [destruct l2|rewrite IH]; reflexivity. Qed.

Lemma skipn_exact {A : Type} (l1 l2 : list A) :
  skipn (List.length l1) (l1 ++ l2) = l2.
Proof. induction l1 as [|a l1 IH]; simpl; [reflexivity|exact IH]. Qed.

Lemma update_middle {A : Type} (l1 l2 : list A) (a v : A) :
  update (l1 ++ a :: l2) (List.length l1) v = l1 ++ v :: l2.
Proof.
  unfold update. rewrite firstn_exact. f_equal. f_equal.
  change (S (List.length l1)) with (1 + List.length l1)%nat.
  rewrite <- skipn_skipn, skipn_exact. reflexivity.
Qed.

Lemma split_at {A : Type} (l : list A) (n : nat) :
  (n < List.length l)%nat ->
  exists l1 a l2, l = l1 ++ a :: l2 /\ List.length l1 = n.
Proof.
  intros H. destruct (nth_error l n) as [a|] eqn:E.
  - destruct (nth_error_split _ _ E) as (l1 & l2 & -> & Hl). eauto.
  - apply nth_error_None in E. lia.
Qed.

Lemma length_update {A : Type} (l : list A) (n : nat) (v : A) :
  (n < List.length l)%nat -> List.length (update l n v) = List.length l.
Proof.
  intros H. destruct (split_at l n H) as (l1 & a & l2 & -> & <-).
  rewrite update_middle, !length_app. reflexivity.
Qed.

Lemma nth_error_update_same {A : Type} (l : list A) (n : nat) (v : A) :
  (n < List.length l)%nat -> nth_error (update l n v) n = Some v.
Proof.
  intros H. destruct (split_at l n H) as (l1 & a & l2 & -> & <-).
  rewrite update_middle, nth_error_app2, Nat.sub_diag by lia. reflexivity.
Qed.

Lemma nth_error_update_other {A : Type} (l : list A) (n m : nat) (v : A) :
  (n < List.length l)%nat -> n <> m -> nth_error (update l n v) m = nth_error l m.
Proof.
  intros H Hm. destruct (split_at l n H) as (l1 & a & l2 & -> & <-).
  rewrite update_middle.
  destruct (Nat.lt_ge_cases m (List.length l1)) as [Hlt|Hge].
  - rewrite !nth_error_app1 by lia. reflexivity.
  - rewrite !nth_error_app2 by lia.
    destruct (m - List.length l1)%nat as [|k] eqn:E; [lia|reflexivity].
Qed.

Lemma update_update {A : Type} (l : list A) (n : nat) (v v' : A) :
  (n < List.length l)%nat -> update (update l n v) n v' = update l n v'.
Proof.
  intros H. destruct (split_at l n H) as (l1 & a & l2 & -> & <-).
  rewrite !update_middle. reflexivity.
Qed.

Lemma mix_0 {A : Type} (new old : list A) : mix 0 new old = old.
Proof. reflexivity. Qed.

Lemma mix_all {A : Type} (new old : list A) :
  List.length new = List.length old -> mix (List.length old) new old = new.
Proof.
  intros H. unfold mix. rewrite <- H at 1. rewrite firstn_all, skipn_all.
  apply app_nil_r.
Qed.

Lemma length_mix {A : Type} (j : nat) (new old : list A) :
  List.length new = List.length old -> List.length (mix j new old) = List.length old.
Proof.
  intros H. unfold mix. rewrite length_app, length_firstn, length_skipn. lia.
Qed.

Lemma mix_split {A : Type} (n1 n2 o1 o2 : list A) (v a : A) :
  List.length n1 = List.length o1 ->
  mix (List.length n1) (n1 ++ v :: n2) (o1 ++ a :: o2) = n1 ++ a :: o2 /\
  mix (S (List.length n1)) (n1 ++ v :: n2) (o1 ++ a :: o2) = n1 ++ v :: o2.
Proof.
  intros H. unfold mix. split.
  - rewrite firstn_exact, H, skipn_exact. reflexivity.
  - change (S (List.length n1)) with (1 + List.length n1)%nat at 2.
    rewrite <- skipn_skipn, H, skipn_exact, <- H.
    replace (S (List.length n1)) with (List.length n1 + 1)%nat by lia.
    rewrite firstn_app_2. simpl. rewrite <- app_assoc. reflexivity.
Qed.

Lemma nth_error_mix_old {A : Type} (j : nat) (new old : list A) (a : A) :
  List.length new = List.length old ->
  nth_error old j = Some a ->
  nth_error (mix j new old) j = Some a.
Proof.
  intros H Ha.
  destruct (nth_error_split _ _ Ha) as (o1 & o2 & -> & Ho).
  assert (Hj : (j < List.length new)%nat) by (rewrite H, length_app; simpl; lia).
  destruct (split_at new j Hj) as (n1 & v & n2 & -> & Hn).
  assert (E : List.length n1 = List.length o1) by lia.
  rewrite <- Hn. destruct (mix_split n1 n2 o1 o2 v a E) as [-> _].
  rewrite nth_error_app2, Nat.sub_diag by lia. reflexivity.
Qed.

Lemma update_mix {A : Type} (j : nat) (new old : list A) (v : A) :
  List.length new = List.length old ->
  nth_error new j = Some v ->
  update (mix j new old) j v = mix (S j) new old.
Proof.
  intros H Hv.
  destruct (nth_error_split _ _ Hv) as (n1 & n2 & -> & Hn).
  assert (Hj : (j < List.length old)%nat) by (rewrite <- H, length_app; simpl; lia).
  destruct (split_at old j Hj) as (o1 & a & o2 & -> & Ho).
  assert (E : List.length n1 = List.length o1) by lia.
  rewrite <- Hn. destruct (mix_split n1 n2 o1 o2 v a E) as [-> ->].
  apply update_middle.
Qed.

Lemma update_same {A : Type} (l : list A) (n : nat) (a : A) :
  nth_error l n = Some a -> update l n a = l.
Proof.
  intros H. destruct (nth_error_split _ _ H) as (l1 & l2 & -> & <-).
  apply update_middle.
Qed.

(** A loop whose [i]-th iteration takes the state [st i] to [st (S i)]. *)
Lemma for_loop_states {S : Type} (body : Z -> S -> outcome S) (st : nat -> S) (k j : nat) :
  (forall i, (j <= i < j + k)%nat -> body (Z.of_nat i) (st i) = Ok (st (Datatypes.S i))) ->
  for_loop k (Z.of_nat j) body (st j) = Ok (st (j + k)%nat).
Proof.
  revert j. induction k as [|k IH]; intros j H; simpl.
  - rewrite Nat.add_0_r. reflexivity.
  - rewrite H by lia. simpl.
    replace (Z.of_nat j + 1) with (Z.of_nat (Datatypes.S j)) by lia.
    rewrite IH by (intros; apply H; lia).
    f_equal. f_equal. lia.
Qed.

Lemma for_range_states {S : Type} (body : Z -> S -> outcome S) (st : nat -> S) (n : nat) :
  (forall i, (i < n)%nat -> body (Z.of_nat i) (st i) = Ok (st (Datatypes.S i))) ->
  for_range 0 (Z.of_nat n) body (st 0%nat) = Ok (st n).
Proof.
  intros H. unfold for_range.
  rewrite Z.sub_0_r, Nat2Z.id.
  apply (for_loop_states body st n 0). intros; apply H; lia.
Qed.

Lemma get2_nth_error (d : list (list Pixel)) (row : list Pixel) (y x : nat) (p : Pixel) :
  nth_error d y = Some row -> nth_error row x = Some p ->
  get2 d (Z.of_nat y) (Z.of_nat x) = Ok p.
Proof.
  intros Hy Hx. unfold get2.
  rewrite (index_nth_error _ _ _ Hy). simpl. apply index_nth_error, Hx.
Qed.

Lemma put2_in_range (d : list (list Pixel)) (row : list Pixel) (y x : nat) (v : Pixel) :
  nth_error d y = Some row -> (x < List.length row)%nat ->
  put2 d (Z.of_nat y) (Z.of_nat x) v = Ok (update d y (update row x v)).
Proof.
  intros Hy Hx. unfold put2.
  rewrite (index_nth_error _ _ _ Hy). simpl.
  rewrite store_in_range by exact Hx. simpl.
  apply store_in_range. apply nth_error_Some. congruence.
Qed.

(** ** Pixel access: [At], [Set], [SetPixel] *)

Lemma shape_row (ppm : PPM) (y : nat) :
  shape_ok ppm -> (Z.of_nat y < height ppm) ->
  exists row, nth_error (data ppm) y = Some row /\ len row = width ppm.
Proof.
  intros [Hh Hw] Hy. unfold len in Hh.
  destruct (nth_error (data ppm) y) as [row|] eqn:E.
  - exists row. split; [reflexivity|].
    rewrite Forall_forall in Hw. apply Hw. eapply nth_error_In, E.
  - apply nth_error_None in E. lia.
Qed.

Lemma shape_pixel (ppm : PPM) (x y : Z) :
  shape_ok ppm -> in_canvas ppm x y ->
  exists row p, nth_error (data ppm) (Z.to_nat y) = Some row /\
                len row = width ppm /\
                nth_error row (Z.to_nat x) = Some p.
Proof.
  intros Hs [Hx Hy].
  destruct (shape_row ppm (Z.to_nat y) Hs) as (row & Hrow & Hlen); [lia|].
  unfold len in Hlen.
  destruct (nth_error row (Z.to_nat x)) as [p|] eqn:E.
  - exists row, p. auto.
  - apply nth_error_None in E. lia.
Qed.

Lemma out_of_canvas_guard (ppm : PPM) (x y : Z) :
  ~ in_canvas ppm x y ->
  (x <? 0) || (width ppm <=? x) || (y <? 0) || (height ppm <=? y) = true.
Proof.
  intros H. unfold in_canvas in H.
  destruct (Z.ltb_spec x 0); [reflexivity|].
  destruct (Z.leb_spec (width ppm) x); [reflexivity|].
  destruct (Z.ltb_spec y 0); [reflexivity|].
  destruct (Z.leb_spec (height ppm) y); [reflexivity|]. lia.
Qed.

Lemma in_canvas_guard (ppm : PPM) (x y : Z) :
  in_canvas ppm x y ->
  (x <? 0) || (width ppm <=? x) || (y <? 0) || (height ppm <=? y) = false.
Proof.
  intros [Hx Hy].
  destruct (Z.ltb_spec x 0); [lia|].
  destruct (Z.leb_spec (width ppm) x); [lia|].
  destruct (Z.ltb_spec y 0); [lia|].
  destruct (Z.leb_spec (height ppm) y); [lia|]. reflexivity.
Qed.

Lemma SetPixel_guard (ppm : PPM) (x y : Z) :
  (0 <=? x) && (x <? width ppm) && (0 <=? y) && (y <? height ppm) =
  negb ((x <? 0) || (width ppm <=? x) || (y <? 0) || (height ppm <=? y)).
Proof.
  destruct (Z.leb_spec 0 x), (Z.ltb_spec x 0); try lia;
  destruct (Z.ltb_spec x (width ppm)), (Z.leb_spec (width ppm) x); try lia;
  destruct (Z.leb_spec 0 y), (Z.ltb_spec y 0); try lia;
  destruct (Z.ltb_spec y (height ppm)), (Z.leb_spec (height ppm) y); try lia;
  reflexivity.
Qed.

Lemma stored_update (d : list (list Pixel)) (row : list Pixel) (x y x' y' : Z) (c : Pixel) :
  0 <= x -> 0 <= y ->
  nth_error d (Z.to_nat y) = Some row -> (Z.to_nat x < List.length row)%nat ->
  stored (update d (Z.to_nat y) (update row (Z.to_nat x) c)) x' y' =
  if (x' =? x) && (y' =? y) then Some c else stored d x' y'.
Proof.
  intros Hx Hy Hrow Hlen. unfold stored.
  assert (Hd : (Z.to_nat y < List.length d)%nat) by (apply nth_error_Some; congruence).
  destruct (Z.ltb_spec x' 0); simpl.
  { destruct (Z.eqb_spec x' x); [lia|reflexivity]. }
  destruct (Z.ltb_spec y' 0); simpl.
  { destruct (Z.eqb_spec y' y); [lia|]. rewrite andb_false_r. reflexivity. }
  destruct (Z.eqb_spec y' y) as [->|Hne].
  - rewrite nth_error_update_same by exact Hd. rewrite Hrow.
    destruct (Z.eqb_spec x' x) as [->|Hne]; simpl.
    + apply nth_error_update_same, Hlen.
    + apply nth_error_update_other; [exact Hlen|lia].
  - rewrite andb_false_r.
    rewrite nth_error_update_other; [reflexivity|exact Hd|lia].
Qed.

(** C2, as the code has it. Outside the canvas the write used by the
    drawing primitives, [SetPixel], leaves the buffer as it is, while the
    accessors [At] and [Set] both stop at their bounds check with the
    panic "Index out of bounds". Inside the canvas of a well-shaped buffer
    [At] returns the stored pixel, and [Set] and [SetPixel] store the
    given pixel there and change nothing else. *)
Theorem pixel_access_bounds_checked :
  forall (ppm : PPM) (x y : Z) (c : Pixel),
    shape_ok ppm ->
    (~ in_canvas ppm x y ->
       SetPixel ppm (mkPoint x y) c = Ok ppm /\
       At ppm x y = Panic IndexOutOfBounds /\
       Set_ ppm x y c = Panic IndexOutOfBounds) /\
    (in_canvas ppm x y ->
       exists (p : Pixel) (ppm' : PPM),
         stored (data ppm) x y = Some p /\
         At ppm x y = Ok p /\
         Set_ ppm x y c = Ok ppm' /\
         SetPixel ppm (mkPoint x y) c = Ok ppm' /\
         (forall x' y', stored (data ppm') x' y' =
                        if (x' =? x) && (y' =? y) then Some c
                        else stored (data ppm) x' y') /\
         width ppm' = width ppm /\ height ppm' = height ppm /\
         magicNumber ppm' = magicNumber ppm /\ max ppm' = max ppm).
Proof.
  intros ppm x y c Hs. split.
  - intros Hout. unfold SetPixel, At, Set_. simpl X; simpl Y.
    rewrite SetPixel_guard, (out_of_canvas_guard _ _ _ Hout). auto.
  - intros Hin.
    destruct (shape_pixel ppm x y Hs Hin) as (row & p & Hrow & Hlen & Hp).
    destruct Hin as [Hx Hy].
    assert (Hxl : (Z.to_nat x < List.length row)%nat) by (apply nth_error_Some; congruence).
    exists p, (with_data ppm (update (data ppm) (Z.to_nat y) (update row (Z.to_nat x) c))).
    assert (Hget : get2 (data ppm) y x = Ok p).
    { rewrite <- (Z2Nat.id y), <- (Z2Nat.id x) by lia.
      eapply get2_nth_error; eassumption. }
    assert (Hput : put2 (data ppm) y x c =
                   Ok (update (data ppm) (Z.to_nat y) (update row (Z.to_nat x) c))).
    { rewrite <- (Z2Nat.id y) at 1 by lia. rewrite <- (Z2Nat.id x) at 1 by lia.
      apply put2_in_range; assumption. }
    unfold SetPixel, At, Set_. simpl X; simpl Y.
    rewrite SetPixel_guard, (in_canvas_guard ppm x y (conj Hx Hy)). simpl negb. cbv iota.
    rewrite Hget, Hput. simpl.
    repeat split; try reflexivity.
    + unfold stored.
      destruct (Z.ltb_spec x 0); [lia|]. destruct (Z.ltb_spec y 0); [lia|]. simpl.
      rewrite Hrow. exact Hp.
    + intros x' y'. apply stored_update; assumption || lia.
Qed.

(** The accessor [Set] is not a no-op outside the canvas: it panics. *)
Lemma Set_out_of_range_is_not_a_noop :
  Set_ (solid (lit "P3") 2 2 black) (-1) 0 white <> Ok (solid (lit "P3") 2 2 black) /\
  Set_ (solid (lit "P3") 2 2 black) (-1) 0 white = Panic IndexOutOfBounds /\
  At (solid (lit "P3") 2 2 black) 2 0 = Panic IndexOutOfBounds.
Proof.
  split; [intros H; vm_compute in H; discriminate H|].
  split; reflexivity.
Qed.

Lemma solid_shape_ok (magic : list byte) (w h : nat) (c : Pixel) :
  shape_ok (solid magic w h c).
Proof.
  unfold shape_ok, solid, len; simpl. rewrite repeat_length. split; [reflexivity|].
  apply Forall_forall. intros row Hin. apply repeat_spec in Hin. subst row.
  rewrite repeat_length. reflexivity.
Qed.

Lemma pixel_access_bounds_checked_witness :
  shape_ok (solid (lit "P3") 2 2 black) /\
  ~ in_canvas (solid (lit "P3") 2 2 black) 2 1 /\
  in_canvas (solid (lit "P3") 2 2 black) 1 1 /\
  SetPixel (solid (lit "P3") 2 2 black) (mkPoint 2 1) white = Ok (solid (lit "P3") 2 2 black) /\
  At (solid (lit "P3") 2 2 black) 2 1 = Panic IndexOutOfBounds /\
  (exists p ppm',
     At (solid (lit "P3") 2 2 black) 1 1 = Ok p /\
     Set_ (solid (lit "P3") 2 2 black) 1 1 white = Ok ppm' /\
     stored (data ppm') 1 1 = Some white).
Proof.
  assert (Hs : shape_ok (solid (lit "P3") 2 2 black)) by apply solid_shape_ok.
  assert (Hout : ~ in_canvas (solid (lit "P3") 2 2 black) 2 1)
    by (unfold in_canvas; simpl; lia).
  assert (Hin : in_canvas (solid (lit "P3") 2 2 black) 1 1)
    by (unfold in_canvas; simpl; lia).
  destruct (pixel_access_bounds_checked (solid (lit "P3") 2 2 black) 2 1 white Hs)
    as [H1 _].
  destruct (pixel_access_bounds_checked (solid (lit "P3") 2 2 black) 1 1 white Hs)
    as [_ H2].
  destruct (H1 Hout) as (Ha & Hb & _).
  destruct (H2 Hin) as (p & ppm' & _ & Hat & Hset & _ & Hst & _).
  repeat (split; [assumption|]).
  exists p, ppm'. repeat (split; [assumption|]).
  rewrite Hst. reflexivity.
Defined.

(** ** Invert *)

Lemma invert_channel_twice (b : byte) : uint8 (255 - u8 (uint8 (255 - u8 b))) = b.
Proof. destruct b; reflexivity. Qed.

Lemma invert_channel_value (b : byte) : u8 (uint8 (255 - u8 b)) = 255 - u8 b.
Proof. destruct b; reflexivity. Qed.

Lemma invertPixel_twice (p : Pixel) : invertPixel (invertPixel p) = p.
Proof.
  destruct p as [r g b]. unfold invertPixel; cbn [R G B].
  rewrite !invert_channel_twice. reflexivity.
Qed.

(** A loop over the columns of row [y] whose iteration [x] stores [f p]
    in place of the pixel [p] it finds there. *)
Lemma row_loop (body : Z -> list (list Pixel) -> outcome (list (list Pixel)))
  (f : Pixel -> Pixel) (d : list (list Pixel)) (row : list Pixel) (y : nat) :
  nth_error d y = Some row ->
  (forall (x : nat) (d' : list (list Pixel)) (p : Pixel),
     nth_error row x = Some p ->
     get2 d' (Z.of_nat y) (Z.of_nat x) = Ok p ->
     body (Z.of_nat x) d' = put2 d' (Z.of_nat y) (Z.of_nat x) (f p)) ->
  for_range 0 (len row) body d = Ok (update d y (map f row)).
Proof.
  intros Hrow Hbody.
  assert (Hy : (y < List.length d)%nat) by (apply nth_error_Some; congruence).
  assert (Hlen : List.length (map f row) = List.length row) by apply length_map.
  pose (st := fun x : nat => update d y (mix x (map f row) row)).
  assert (H0 : st 0%nat = d) by (apply update_same; exact Hrow).
  assert (Hn : st (List.length row) = update d y (map f row))
    by (unfold st; rewrite mix_all by exact Hlen; reflexivity).
  rewrite <- H0 at 1. rewrite <- Hn. unfold len.
  apply for_range_states. intros x Hx. unfold st.
  destruct (nth_error row x) as [p|] eqn:Hp; [|apply nth_error_None in Hp; lia].
  assert (Hcur : nth_error (update d y (mix x (map f row) row)) y
                 = Some (mix x (map f row) row))
    by (apply nth_error_update_same; exact Hy).
  rewrite (Hbody x _ p Hp)
    by (apply (get2_nth_error _ _ y x p Hcur), nth_error_mix_old; assumption).
  rewrite (put2_in_range _ _ y x (f p) Hcur)
    by (rewrite length_mix by exact Hlen; exact Hx).
  rewrite update_update by exact Hy.
  rewrite update_mix; [reflexivity|exact Hlen|].
  rewrite nth_error_map, Hp. reflexivity.
Qed.

(** A loop over the rows whose iteration [y] rewrites row [y] with [f]. *)
Lemma grid_loop (body : Z -> list (list Pixel) -> outcome (list (list Pixel)))
  (f : Pixel -> Pixel) (d : list (list Pixel)) :
  (forall (y : nat) (d' : list (list Pixel)) (row : list Pixel),
     nth_error d y = Some row ->
     nth_error d' y = Some row ->
     body (Z.of_nat y) d' = Ok (update d' y (map f row))) ->
  for_range 0 (len d) body d = Ok (map (map f) d).
Proof.
  intros Hbody. set (new := map (map f) d).
  assert (Hlen : List.length new = List.length d) by apply length_map.
  unfold len.
  rewrite <- (mix_0 new d) at 1. rewrite <- (mix_all new d Hlen) at 2.
  apply (for_range_states _ (fun y => mix y new d)). intros y Hy.
  destruct (nth_error d y) as [row|] eqn:Hrow; [|apply nth_error_None in Hrow; lia].
  rewrite (Hbody y _ row Hrow) by (apply nth_error_mix_old; assumption).
  rewrite update_mix; [reflexivity|exact Hlen|].
  unfold new. rewrite nth_error_map, Hrow. reflexivity.
Qed.

(** The two nested loops of [Invert] on a well-shaped buffer. *)
Lemma map_pixels_loop (f : Pixel -> Pixel) (ppm : PPM) :
  shape_ok ppm ->
  for_range 0 (height ppm) (fun y d =>
    for_range 0 (width ppm) (fun x d =>
      pixel <- get2 d y x ;; put2 d y x (f pixel)) d) (data ppm)
  = Ok (map (map f) (data ppm)).
Proof.
  intros Hs. pose proof Hs as [Hh Hw]. rewrite <- Hh.
  apply grid_loop. intros y d' row Hrow Hrow'.
  assert (Hrl : len row = width ppm).
  { rewrite Forall_forall in Hw. apply Hw. eapply nth_error_In, Hrow. }
  rewrite <- Hrl. apply row_loop; [exact Hrow'|].
  intros x d'' p _ Hget. rewrite Hget. reflexivity.
Qed.

Lemma Invert_shaped (ppm : PPM) :
  shape_ok ppm -> Invert ppm = Ok (with_data ppm (map (map invertPixel) (data ppm))).
Proof.
  intros Hs. unfold Invert. rewrite map_pixels_loop by exact Hs. reflexivity.
Qed.

Lemma shape_ok_map (f : Pixel -> Pixel) (ppm : PPM) :
  shape_ok ppm -> shape_ok (with_data ppm (map (map f) (data ppm))).
Proof.
  intros [Hh Hw]. unfold shape_ok, len in *; simpl. rewrite length_map. split; [exact Hh|].
  rewrite Forall_map. eapply Forall_impl; [|exact Hw].
  intros row Hr. simpl in *. rewrite length_map. exact Hr.
Qed.

(** C10. On a well-shaped buffer [Invert] returns, and a second [Invert]
    returns the original buffer; each application maps every channel [c]
    of every pixel to [255 - c] and keeps the width, the height, the magic
    number and the maximal intensity. *)
Theorem Invert_involution :
  forall ppm : PPM,
    shape_ok ppm ->
    exists ppm1 : PPM,
      Invert ppm = Ok ppm1 /\
      Invert ppm1 = Ok ppm /\
      data ppm1 = map (map invertPixel) (data ppm) /\
      (forall p : Pixel,
         u8 (R (invertPixel p)) = 255 - u8 (R p) /\
         u8 (G (invertPixel p)) = 255 - u8 (G p) /\
         u8 (B (invertPixel p)) = 255 - u8 (B p)) /\
      width ppm1 = width ppm /\ height ppm1 = height ppm /\
      magicNumber ppm1 = magicNumber ppm /\ max ppm1 = max ppm.
Proof.
  intros ppm Hs.
  exists (with_data ppm (map (map invertPixel) (data ppm))).
  split; [apply Invert_shaped, Hs|].
  split.
  - rewrite Invert_shaped by (apply shape_ok_map, Hs).
    destruct ppm as [d w h m mx]. unfold with_data; simpl. do 2 f_equal.
    rewrite map_map. rewrite <- (map_id d) at 2.
    apply map_ext. intros row. rewrite map_map. rewrite <- (map_id row) at 2.
    apply map_ext. intros p. apply invertPixel_twice.
  - split; [reflexivity|]. split; [|repeat split].
    intros [r g b]; unfold invertPixel; cbn [R G B].
    rewrite !invert_channel_value. auto.
Qed.

Lemma Invert_involution_witness :
  shape_ok (solid (lit "P6") 3 2 red) /\
  exists ppm1 : PPM,
    Invert (solid (lit "P6") 3 2 red) = Ok ppm1 /\
    Invert ppm1 = Ok (solid (lit "P6") 3 2 red) /\
    data ppm1 = map (map invertPixel) (data (solid (lit "P6") 3 2 red)).
Proof.
  assert (Hs : shape_ok (solid (lit "P6") 3 2 red)) by apply solid_shape_ok.
  split; [exact Hs|].
  destruct (Invert_involution (solid (lit "P6") 3 2 red) Hs)
    as (ppm1 & H1 & H2 & H3 & _).
  exists ppm1. auto.
Defined.

(** ** Resize with invalid target dimensions *)

(** C5. When [newWidth <= 0] or [newHeight <= 0], [KNearestNeighbors]
    prints "Invalid dimensions for resizing." and returns at once: the
    buffer it leaves is the one it was given, with its width, height and
    every pixel. *)
Theorem KNearestNeighbors_invalid_dimensions :
  forall (ppm : PPM) (newWidth newHeight : Z),
    newWidth <= 0 \/ newHeight <= 0 ->
    KNearestNeighbors ppm newWidth newHeight =
    Ok (ppm, ["Invalid dimensions for resizing."%string]).
Proof.
  intros ppm nw nh H. unfold KNearestNeighbors.
  destruct (Z.leb_spec nw 0); [reflexivity|].
  destruct (Z.leb_spec nh 0); [reflexivity|]. lia.
Qed.

Lemma KNearestNeighbors_invalid_dimensions_witness :
  (0 <= 0 \/ 3 <= 0) /\
  KNearestNeighbors (solid (lit "P3") 2 2 red) 0 3 =
  Ok (solid (lit "P3") 2 2 red, ["Invalid dimensions for resizing."%string]).
Proof.
  split; [left; lia|].
  apply (KNearestNeighbors_invalid_dimensions (solid (lit "P3") 2 2 red) 0 3).
  left; lia.
Defined.

(** ** Filled rectangle *)

(** C3, at the input where the code departs from it. The rectangle with
    corner (0,0), width 3 and height 3 covers the 3 by 3 canvas exactly, and
    [DrawFilledRectangle] fills none of it: neither [p1.Y+height <
    ppm.height] nor [p1.Y+height > ppm.height] holds when the two are
    equal. The same happens on every row when [p1.X+width] equals the canvas
    width. Away from the edges the columns run to [p1.X+width] included but
    the rows stop before [p1.Y+height]; and a corner left of or above the
    canvas is indexed as it is. *)
Theorem DrawFilledRectangle_misses_edge_case :
  DrawFilledRectangle (solid (lit "P3") 3 3 black) (mkPoint 0 0) 3 3 white
    = Ok (solid (lit "P3") 3 3 black) /\
  DrawFilledRectangle (solid (lit "P3") 3 3 black) (mkPoint 0 0) 3 1 white
    = Ok (solid (lit "P3") 3 3 black) /\
  DrawFilledRectangle (solid (lit "P3") 3 3 black) (mkPoint 0 0) 1 1 white
    = Ok (mkPPM [[white; white; black]; [black; black; black]; [black; black; black]]
                3 3 (lit "P3") xff) /\
  DrawFilledRectangle (solid (lit "P3") 3 3 black) (mkPoint (-1) 0) 2 1 white
    = Panic (RuntimeIndex (-1) 3).
Proof. repeat split; reflexivity. Qed.

(** ** Decoding *)

(** The binary scenario of the specification: a complete 2 by 2 image. *)
Example ReadPPM_2x2_binary :
  exists ppm, ReadPPM (header_2x2_P6 ++ pixels_2x2) = Ok ppm /\
    width ppm = 2 /\ height ppm = 2 /\
    At ppm 0 0 = Ok red /\ At ppm 1 0 = Ok green /\
    At ppm 0 1 = Ok blue /\ At ppm 1 1 = Ok white.
Proof. eexists. split; [vm_compute; reflexivity|]. repeat split; reflexivity. Qed.

(** C6. The 2 by 2 binary image whose pixel data has 11 of its 12 bytes:
    [ReadPPM] returns the error "unexpected end of file at row 1, expected
    6 bytes, got 5", and with an error it returns no buffer. *)
Theorem ReadPPM_truncated_binary :
  List.length (firstn 11 pixels_2x2) = 11%nat /\
  ReadPPM (header_2x2_P6 ++ firstn 11 pixels_2x2) = Err (ShortRow 1 6 5).
Proof. split; vm_compute; reflexivity. Qed.

(** C4, at an input where the code departs from it. [ReadPPM] takes the
    line after the magic number for the dimensions, whatever it holds: a
    comment line there makes [Sscanf] fail with "expected integer" and the
    decoding with "invalid dimensions", while the same file without the
    comment decodes. *)
Theorem ReadPPM_rejects_header_comment :
  ReadPPM file_1x1_P3 =
    Ok (mkPPM [[mkPixel x01 x02 x03]] 1 1 (lit "P3") xff) /\
  ReadPPM file_1x1_P3_commented = Err (InvalidDimensions ExpectedInteger).
Proof. split; vm_compute; reflexivity. Qed.

(** A comment is accepted at no other place of the header either. *)
Example ReadPPM_rejects_comments_elsewhere :
  ReadPPM (lit "# c" ++ [nl] ++ file_1x1_P3) = Err (InvalidMagic (lit "# c")) /\
  ReadPPM (lit "P3" ++ [nl] ++ lit "1 1" ++ [nl] ++ lit "# c" ++ [nl] ++ lit "255" ++ [nl]
           ++ lit "1 2 3 " ++ [nl]) = Err (InvalidMax ExpectedInteger) /\
  ReadPPM (lit "P3" ++ [nl] ++ lit "1 1" ++ [nl] ++ lit "255" ++ [nl] ++ lit "# c" ++ [nl]
           ++ lit "1 2 3 " ++ [nl]) = Err (FieldsOutOfRange 0 0).
Proof.
  split; [vm_compute; reflexivity|].
  split; vm_compute; reflexivity.
Qed.

(** ** Encoding, then decoding *)

Example round_trip_small_files :
  (s <- Save (solid (lit "P3") 3 2 red) ;; ReadPPM s) = Ok (solid (lit "P3") 3 2 red) /\
  (s <- Save (solid (lit "P6") 3 2 red) ;; ReadPPM s) = Ok (solid (lit "P6") 3 2 red) /\
  (s <- Save (solid (lit "P3") 64 64 black) ;; ReadPPM s) = Ok (solid (lit "P3") 64 64 black).
Proof.
  split; [vm_compute; reflexivity|].
  split; vm_compute; reflexivity.
Qed.

(** C1, at an input where the code departs from it. A 64 by 64 image of
    the binary variant is saved as 13 bytes of header and 64 rows of 192
    bytes. The reader's buffer takes the first 4096 bytes of the file when
    the magic number is read; after the header it holds 4083 bytes, that is
    21 rows and 51 bytes more. [Read] hands out those 51 bytes for row 21
    without reading the file again, and [ReadPPM] takes the short count for
    the end of the file. *)
Theorem Save_then_ReadPPM_binary_fails :
  (s <- Save (solid (lit "P6") 64 64 black) ;; Ok (len s)) = Ok 12301 /\
  (s <- Save (solid (lit "P6") 64 64 black) ;; ReadPPM s) = Err (ShortRow 21 192 51).
Proof. split; vm_compute; reflexivity. Qed.

(** ** Filled triangle *)

(** C7, at an input where the code departs from it. For the triangle
    (1,0), (0,2), (2,2) the sorted vertices end with two of equal [Y];
    [FilledTriangleTools] divides by their difference all the same: on the
    scanline [y = 0] the quotient 2/0 is [+Inf], the intersection is
    [-Inf], and its conversion to [int] has no specified result. *)
Theorem DrawFilledTriangle_divides_by_zero :
  sortByY [mkPoint 1 0; mkPoint 0 2; mkPoint 2 2] = [mkPoint 1 0; mkPoint 0 2; mkPoint 2 2] /\
  fdiv (float64_of_int (2 -! 0)) (float64_of_int (2 -! 2)) = S754_infinity false /\
  FilledTriangleTools (mkPoint 0 2) (mkPoint 2 2) 0 = S754_infinity true /\
  FilledTriangleTools (mkPoint 0 2) (mkPoint 2 2) 2 = S754_nan /\
  forall (fuel : nat) (ppm : PPM) (color : Pixel),
    DrawFilledTriangle fuel ppm (mkPoint 1 0) (mkPoint 0 2) (mkPoint 2 2) color = Unspecified.
Proof. repeat split; reflexivity. Qed.

(** A triangle whose equal-[Y] vertices come first is filled. *)
Example DrawFilledTriangle_flat_top :
  DrawFilledTriangle 10 (solid (lit "P3") 3 3 black) (mkPoint 0 0) (mkPoint 2 0) (mkPoint 1 2) white
  = Ok (mkPPM [[white; white; white]; [white; white; black]; [black; white; black]]
              3 3 (lit "P3") xff).
Proof. reflexivity. Qed.

(** ** Koch snowflake of depth 0 *)

Lemma KochSnowflake_0 (cos sin : float64) (fuel depth : nat) (ppm : PPM) (p q : Point)
  (color : Pixel) :
  KochSnowflake cos sin fuel depth ppm 0 p q color = DrawLine fuel ppm p q color.
Proof. destruct depth; reflexivity. Qed.

(** C9. With depth 0, [DrawKochSnowflake] is [DrawTriangle] on the
    vertices of the base triangle built from [start] and [size]: the same
    three lines in the same order, hence the same final buffer (and the
    same failure, should a line leave the loop without its end point). *)
Theorem DrawKochSnowflake_depth_0 :
  forall (cos sin : float64) (fuel depth : nat) (ppm : PPM) (start : Point) (size : Z)
         (color : Pixel),
    DrawKochSnowflake cos sin fuel depth ppm 0 start size color =
    ('(p1, p2, p3) <- baseTriangle start size ;; DrawTriangle fuel ppm p1 p2 p3 color).
Proof.
  intros. unfold DrawKochSnowflake, baseTriangle, DrawTriangle.
  destruct (triangleHeight size) as [h| | | |]; try reflexivity. simpl.
  rewrite KochSnowflake_0.
  destruct (DrawLine fuel ppm start _ color) as [ppm1| | | |]; try reflexivity. simpl.
  rewrite KochSnowflake_0.
  destruct (DrawLine fuel ppm1 _ _ color) as [ppm2| | | |]; try reflexivity. simpl.
  apply KochSnowflake_0.
Qed.

(** Both sides of C9 on a 6 by 6 canvas: the three edges of the triangle
    (0,0), (4,0), (2,3). *)
Example DrawKochSnowflake_depth_0_drawn (cos sin : float64) :
  baseTriangle (mkPoint 0 0) 4 = Ok (mkPoint 0 0, mkPoint 4 0, mkPoint 2 3) /\
  DrawKochSnowflake cos sin 10 0 (solid (lit "P3") 6 6 black) 0 (mkPoint 0 0) 4 white =
  Ok (mkPPM [[white; white; white; white; white; black];
             [black; white; black; white; black; black];
             [black; white; black; white; black; black];
             [black; black; white; black; black; black];
             [black; black; black; black; black; black];
             [black; black; black; black; black; black]] 6 6 (lit "P3") xff).
Proof. split; reflexivity. Qed.

(** ** Floating point: rounding and its error

    The lemmas below follow the definitions of [SpecFloat] for binary64:
    [shr_fexp] shifts a mantissa down to 53 digits, [round_nearest_even]
    adds at most one, and the result exceeds the rounded number by at most
    the factor [1 + 2^-52]. *)

Lemma digits2_pos_bounds (p : positive) :
  2 ^ (Zpos (digits2_pos p) - 1) <= Zpos p < 2 ^ Zpos (digits2_pos p).
Proof.
  induction p as [p IH|p IH|]; cbn [digits2_pos].
  - rewrite Pos2Z.inj_succ, Z.pow_succ_r by lia.
    replace (Z.succ (Zpos (digits2_pos p)) - 1) with (Z.succ (Zpos (digits2_pos p) - 1)) by lia.
    rewrite Z.pow_succ_r by lia. lia.
  - rewrite Pos2Z.inj_succ, Z.pow_succ_r by lia.
    replace (Z.succ (Zpos (digits2_pos p)) - 1) with (Z.succ (Zpos (digits2_pos p) - 1)) by lia.
    rewrite Z.pow_succ_r by lia. lia.
  - simpl. lia.
Qed.

Lemma digits2_pos_unique (p : positive) (k : Z) :
  2 ^ (k - 1) <= Zpos p < 2 ^ k -> Zpos (digits2_pos p) = k.
Proof.
  intros [Hlo Hhi]. pose proof (digits2_pos_bounds p) as [Dlo Dhi].
  set (d := Zpos (digits2_pos p)) in *.
  assert (0 < k).
  { destruct (Z.lt_ge_cases 0 k); [assumption|].
    assert (2 ^ k <= 2 ^ 0) by (apply Z.pow_le_mono_r; lia). simpl in *. lia. }
  assert (d - 1 < k) by (apply (Z.pow_lt_mono_r_iff 2); lia).
  assert (k - 1 < d) by (apply (Z.pow_lt_mono_r_iff 2); lia).
  lia.
Qed.

Lemma iter_pos_nat {A : Type} (f : A -> A) (p : positive) (x : A) :
  iter_pos f p x = Nat.iter (Pos.to_nat p) f x.
Proof.
  revert x. induction p as [p IH|p IH|]; intros x; cbn [iter_pos].
  - rewrite !IH, Pos2Nat.inj_xI.
    replace (2 * Pos.to_nat p)%nat with (Pos.to_nat p + Pos.to_nat p)%nat by lia.
    rewrite Nat.iter_succ_r, Nat.iter_add. reflexivity.
  - rewrite !IH, Pos2Nat.inj_xO.
    replace (2 * Pos.to_nat p)%nat with (Pos.to_nat p + Pos.to_nat p)%nat by lia.
    rewrite Nat.iter_add. reflexivity.
  - reflexivity.
Qed.

Lemma shr_1_m (mrs : shr_record) :
  0 <= shr_m mrs -> shr_m (shr_1 mrs) = shr_m mrs / 2.
Proof.
  destruct mrs as [m r s]. simpl. intros Hm.
  destruct m as [|[p|p|]|p]; cbn [shr_m shr_1].
  - reflexivity.
  - apply Z.div_unique with 1; lia.
  - apply Z.div_unique with 0; lia.
  - reflexivity.
  - lia.
Qed.

Lemma shr_iter_m (n : nat) (mrs : shr_record) :
  0 <= shr_m mrs -> shr_m (Nat.iter n shr_1 mrs) = shr_m mrs / 2 ^ Z.of_nat n.
Proof.
  intros Hm. induction n as [|n IH].
  - simpl. rewrite Z.div_1_r. reflexivity.
  - rewrite Nat.iter_succ, shr_1_m.
    + rewrite IH, Nat2Z.inj_succ, Z.pow_succ_r by lia.
      rewrite Z.div_div by lia. f_equal. lia.
    + rewrite IH. apply Z.div_pos; lia.
Qed.

Lemma shr_record_of_loc_m (m : Z) (l : location) : shr_m (shr_record_of_loc m l) = m.
Proof. destruct l as [|[]]; reflexivity. Qed.

Lemma fexp64 (k : Z) : fexp 53 1024 k = Z.max (k - 53) (-1074).
Proof. reflexivity. Qed.

(** What [shr_fexp] does to the mantissa and the exponent. *)
Lemma shr_fexp_spec (m : positive) (e : Z) (l : location) :
  let n := Z.max (fexp 53 1024 (Zpos (digits2_pos m) + e) - e) 0 in
  shr_m (fst (shr_fexp 53 1024 (Zpos m) e l)) = Zpos m / 2 ^ n /\
  snd (shr_fexp 53 1024 (Zpos m) e l) = e + n.
Proof.
  unfold shr_fexp, shr. cbn [Zdigits2].
  destruct (fexp 53 1024 (Zpos (digits2_pos m) + e) - e) as [|p|p] eqn:E; cbn [fst snd].
  - rewrite shr_record_of_loc_m. simpl. rewrite Z.div_1_r. split; [reflexivity|lia].
  - rewrite iter_pos_nat, shr_iter_m by (rewrite shr_record_of_loc_m; lia).
    rewrite shr_record_of_loc_m, positive_nat_Z.
    replace (Z.max (Zpos p) 0) with (Zpos p) by lia. split; reflexivity.
  - rewrite shr_record_of_loc_m. simpl. rewrite Z.div_1_r. split; [reflexivity|lia].
Qed.

Lemma shr_fexp_no_shift (m : positive) (e : Z) (l : location) :
  fexp 53 1024 (Zpos (digits2_pos m) + e) - e <= 0 ->
  shr_fexp 53 1024 (Zpos m) e l = (shr_record_of_loc (Zpos m) l, e).
Proof.
  intros H. unfold shr_fexp, shr. cbn [Zdigits2].
  destruct (fexp 53 1024 (Zpos (digits2_pos m) + e) - e) as [|p|p]; try reflexivity. lia.
Qed.

Lemma round_nearest_even_bounds (m : Z) (l : location) :
  m <= round_nearest_even m l <= m + 1.
Proof. destruct l as [|[]]; simpl; try destruct (Z.even m); lia. Qed.

Lemma pow2_split (a b : Z) : 0 <= a -> 0 <= b -> 2 ^ (a + b) = 2 ^ a * 2 ^ b.
Proof. intros. apply Z.pow_add_r; assumption. Qed.

(** Rounding a positive number of at least 53 digits, away from the ends
    of the exponent range: the result is a normal number that exceeds
    [m * 2^e] by at most one unit of its last place. *)
Lemma binary_round_aux_upper (m : positive) (e : Z) (l : location) :
  let d := Zpos (digits2_pos m) in
  53 <= d -> -1074 <= d + e - 53 -> d + e - 53 + 1 <= 971 ->
  exists (m' : positive) (e' : Z),
    binary_round_aux 53 1024 false (Zpos m) e l = S754_finite false m' e' /\
    2 ^ 52 <= Zpos m' < 2 ^ 53 /\
    e + (d - 53) <= e' <= e + (d - 53) + 1 /\
    Zpos m' * 2 ^ (e' - e) <= Zpos m + 2 ^ (d - 53).
Proof.
  intros d Hd Hlo Hhi.
  pose proof (digits2_pos_bounds m) as [Dlo Dhi]. fold d in Dlo, Dhi.
  unfold binary_round_aux.
  pose proof (shr_fexp_spec m e l) as [Hm1 He1].
  destruct (shr_fexp 53 1024 (Zpos m) e l) as [mrs1 e1]. cbn [fst snd] in Hm1, He1.
  rewrite fexp64 in Hm1, He1. fold d in Hm1, He1.
  replace (Z.max (Z.max (d + e - 53) (-1074) - e) 0) with (d - 53) in Hm1, He1 by lia.
  set (n1 := d - 53) in *.
  assert (Hp : 2 ^ d = 2 ^ 53 * 2 ^ n1)
    by (rewrite <- pow2_split by lia; f_equal; lia).
  assert (Hp' : 2 ^ (d - 1) = 2 ^ 52 * 2 ^ n1)
    by (rewrite <- pow2_split by lia; f_equal; lia).
  assert (Hn1 : 0 < 2 ^ n1) by (apply Z.pow_pos_nonneg; lia).
  assert (B1 : 2 ^ 52 <= shr_m mrs1 < 2 ^ 53).
  { rewrite Hm1. split.
    - apply Z.div_le_lower_bound; lia.
    - apply Z.div_lt_upper_bound; lia. }
  assert (M1 : shr_m mrs1 * 2 ^ n1 <= Zpos m).
  { rewrite Hm1, Z.mul_comm. apply Z.mul_div_le. lia. }
  pose proof (round_nearest_even_bounds (shr_m mrs1) (loc_of_shr_record mrs1)) as B2.
  set (m2 := round_nearest_even (shr_m mrs1) (loc_of_shr_record mrs1)) in *.
  destruct m2 as [|p2|p2] eqn:E2; try lia.
  pose proof (shr_fexp_spec p2 e1 loc_Exact) as [Hm3 He3].
  destruct (shr_fexp 53 1024 (Zpos p2) e1 loc_Exact) as [mrs3 e3]. cbn [fst snd] in Hm3, He3.
  rewrite fexp64 in Hm3, He3.
  destruct (Z.eq_dec (Zpos p2) (2 ^ 53)) as [Heq|Hne].
  - (* the rounding carried into a 54th digit *)
    assert (D2 : Zpos (digits2_pos p2) = 54)
      by (apply digits2_pos_unique; rewrite Heq; simpl; lia).
    rewrite D2 in Hm3, He3.
    replace (Z.max (Z.max (54 + e1 - 53) (-1074) - e1) 0) with 1 in Hm3, He3 by lia.
    rewrite Heq in Hm3. change (2 ^ 53 / 2 ^ 1) with (2 ^ 52) in Hm3.
    rewrite Hm3. change (2 ^ 52) with (Zpos 4503599627370496).
    cbv iota beta.
    destruct (Z.leb_spec e3 (1024 - 53)); [|lia].
    exists 4503599627370496%positive, e3.
    split; [reflexivity|]. split; [simpl; lia|]. split; [lia|].
    replace (e3 - e) with (1 + n1) by lia.
    rewrite pow2_split by lia. change (2 ^ 1) with 2.
    change (Zpos 4503599627370496 * (2 * 2 ^ n1)) with (2 ^ 52 * (2 * 2 ^ n1)).
    assert (2 ^ 53 = 2 * 2 ^ 52) by reflexivity. nia.
  - assert (D2 : Zpos (digits2_pos p2) = 53)
      by (apply digits2_pos_unique; change (53 - 1) with 52; lia).
    rewrite D2 in Hm3, He3.
    replace (Z.max (Z.max (53 + e1 - 53) (-1074) - e1) 0) with 0 in Hm3, He3 by lia.
    rewrite Z.div_1_r in Hm3. rewrite Hm3. cbv iota beta.
    destruct (Z.leb_spec e3 (1024 - 53)); [|lia].
    exists p2, e3.
    split; [reflexivity|]. split; [lia|]. split; [lia|].
    replace (e3 - e) with n1 by lia. nia.
Qed.

(** *** Values as real numbers *)

Section RealValues.

Local Open Scope R_scope.

Lemma p2_pos (e : Z) : 0 < p2 e.
Proof. apply powerRZ_lt. lra. Qed.

Lemma p2_add (a b : Z) : p2 (a + b) = p2 a * p2 b.
Proof. apply powerRZ_add. lra. Qed.

Lemma p2_0 : p2 0 = 1.
Proof. reflexivity. Qed.

Lemma p2_IZR (k : Z) : (0 <= k)%Z -> IZR (2 ^ k) = p2 k.
Proof.
  intros H. rewrite <- (Z2Nat.id k H) at 1.
  rewrite <- pow_IZR, pow_powerRZ, Z2Nat.id by exact H. reflexivity.
Qed.

Lemma p2_opp (a : Z) : p2 a * p2 (- a) = 1.
Proof. rewrite <- p2_add, Z.add_opp_diag_r. apply p2_0. Qed.

Lemma eps_p2 : eps = p2 (-52).
Proof.
  unfold eps. apply Rmult_eq_reg_l with (p2 52); [|pose proof (p2_pos 52); lra].
  rewrite p2_opp. rewrite <- p2_IZR by lia.
  change (2 ^ 52)%Z with 4503599627370496%Z. field.
Qed.

Lemma fval_pos (m : positive) (e : Z) : 0 < fval m e.
Proof.
  unfold fval. apply Rmult_lt_0_compat; [|apply p2_pos].
  apply IZR_lt. reflexivity.
Qed.

(** The rounded value in terms of the real numbers. *)
Lemma binary_round_aux_upper_R (m : positive) (e : Z) (l : location) :
  let d := Zpos (digits2_pos m) in
  (53 <= d)%Z -> (-1074 <= d + e - 53)%Z -> (d + e - 53 + 1 <= 971)%Z ->
  exists (m' : positive) (e' : Z),
    binary_round_aux 53 1024 false (Zpos m) e l = S754_finite false m' e' /\
    (2 ^ 52 <= Zpos m' < 2 ^ 53)%Z /\
    (e + (d - 53) <= e' <= e + (d - 53) + 1)%Z /\
    fval m' e' <= fval m e * (1 + eps).
Proof.
  intros d Hd Hlo Hhi.
  destruct (binary_round_aux_upper m e l Hd Hlo Hhi) as (m' & e' & Hr & Hm & He & Hle).
  exists m', e'. repeat (split; [assumption|]).
  pose proof (digits2_pos_bounds m) as [Dlo _]. fold d in Dlo, He, Hle.
  apply IZR_le in Hle, Dlo.
  rewrite mult_IZR, p2_IZR in Hle by lia.
  rewrite plus_IZR, p2_IZR in Hle by lia.
  rewrite p2_IZR in Dlo by lia.
  replace (p2 (d - 53)) with (p2 (d - 1) * eps) in Hle
    by (rewrite eps_p2, <- p2_add; f_equal; lia).
  unfold fval.
  replace e' with ((e' - e) + e)%Z at 1 by lia. rewrite p2_add.
  pose proof (p2_pos e) as Pe.
  assert (Heps : 0 < eps) by (unfold eps; lra).
  assert (H1 : IZR (Zpos m') * p2 (e' - e) <= IZR (Zpos m) * (1 + eps)) by nra.
  rewrite <- Rmult_assoc.
  replace (IZR (Zpos m) * p2 e * (1 + eps)) with (IZR (Zpos m) * (1 + eps) * p2 e) by ring.
  apply Rmult_le_compat_r; lra.
Qed.

End RealValues.

Lemma iter_xO (p k : positive) : Zpos (Pos.iter xO p k) = Zpos p * 2 ^ Zpos k.
Proof.
  induction k as [|k IH] using Pos.peano_ind.
  - simpl. lia.
  - rewrite Pos.iter_succ, Pos2Z.inj_xO, IH, Pos2Z.inj_succ, Z.pow_succ_r by lia. lia.
Qed.

(** A mantissa of 53 digits with nothing to round comes back as it is. *)
Lemma binary_round_aux_exact (s : bool) (m : positive) (e : Z) :
  Zpos (digits2_pos m) = 53 -> -1074 <= e <= 971 ->
  binary_round_aux 53 1024 s (Zpos m) e loc_Exact = S754_finite s m e.
Proof.
  intros Hd He. unfold binary_round_aux.
  assert (Hn : fexp 53 1024 (Zpos (digits2_pos m) + e) - e <= 0)
    by (rewrite Hd, fexp64; lia).
  rewrite shr_fexp_no_shift by exact Hn. cbn [shr_record_of_loc shr_m loc_of_shr_record].
  cbn [round_nearest_even].
  rewrite shr_fexp_no_shift by exact Hn. cbn [shr_record_of_loc shr_m].
  destruct (Z.leb_spec e (1024 - 53)); [reflexivity|lia].
Qed.

(** Integers below [2^53] convert to [float64] without rounding. *)
Lemma float64_of_int_exact (z : Z) :
  0 < z < 2 ^ 53 ->
  exists (m : positive) (e : Z),
    float64_of_int z = S754_finite false m e /\
    Zpos (digits2_pos m) = 53 /\
    -52 <= e <= 0 /\
    fval m e = IZR z.
Proof.
  intros Hz. destruct z as [|p|p]; try lia.
  unfold float64_of_int, binary_normalize, binary_round.
  pose proof (digits2_pos_bounds p) as [Dlo Dhi].
  set (d := Zpos (digits2_pos p)) in *.
  assert (Hd1 : 1 <= d) by (unfold d; lia).
  assert (Hd : d <= 53).
  { assert (d - 1 < 53) by (apply (Z.pow_lt_mono_r_iff 2); lia). lia. }
  rewrite fexp64. replace (Z.max (d + 0 - 53) (-1074)) with (d - 53) by lia.
  assert (Hal : exists mz, shl_align p 0 (d - 53) = (mz, d - 53) /\
                           Zpos mz = Zpos p * 2 ^ (53 - d)).
  { unfold shl_align. destruct (d - 53 - 0) as [|k|k] eqn:E; try lia.
    - exists p. replace (d - 53) with 0 by lia. replace (53 - d) with 0 by lia.
      split; [reflexivity|simpl; lia].
    - exists (Pos.iter xO p k). split; [reflexivity|].
      rewrite iter_xO. f_equal. f_equal. lia. }
  destruct Hal as (mz & -> & Hmz).
  assert (Hp : 2 ^ 53 = 2 ^ d * 2 ^ (53 - d))
    by (rewrite <- pow2_split by lia; f_equal; lia).
  assert (Hp' : 2 ^ 52 = 2 ^ (d - 1) * 2 ^ (53 - d))
    by (rewrite <- pow2_split by lia; f_equal; lia).
  assert (Hpos : 0 < 2 ^ (53 - d)) by (apply Z.pow_pos_nonneg; lia).
  assert (Dz : Zpos (digits2_pos mz) = 53).
  { apply digits2_pos_unique. change (53 - 1) with 52. rewrite Hmz. nia. }
  rewrite binary_round_aux_exact by (assumption || lia).
  exists mz, (d - 53). split; [reflexivity|]. split; [exact Dz|]. split; [lia|].
  unfold fval. rewrite Hmz, mult_IZR, p2_IZR by lia.
  rewrite Rmult_assoc, <- p2_add.
  replace (53 - d + (d - 53)) with 0 by lia. rewrite p2_0. ring.
Qed.

Lemma mantissa_digits (m : positive) :
  2 ^ 52 <= Zpos m < 2 ^ 53 <-> Zpos (digits2_pos m) = 53.
Proof.
  split.
  - intros H. apply digits2_pos_unique. exact H.
  - intros H. pose proof (digits2_pos_bounds m) as B. rewrite H in B. exact B.
Qed.

Lemma digits_between (p : positive) (a b : Z) :
  0 <= a -> 2 ^ a <= Zpos p < 2 ^ b -> a + 1 <= Zpos (digits2_pos p) <= b.
Proof.
  intros Ha [Hlo Hhi]. pose proof (digits2_pos_bounds p) as [Dlo Dhi].
  set (d := Zpos (digits2_pos p)) in *.
  assert (0 < b).
  { destruct (Z.lt_ge_cases 0 b); [assumption|].
    assert (2 ^ b <= 2 ^ 0) by (apply Z.pow_le_mono_r; lia). simpl in *. lia. }
  assert (a < d) by (apply (Z.pow_lt_mono_r_iff 2); lia).
  assert (d - 1 < b) by (apply (Z.pow_lt_mono_r_iff 2); lia).
  lia.
Qed.

(** The quotient of two normal numbers of moderate exponent. *)
Lemma fdiv_upper (m1 m2 : positive) (e1 e2 : Z) :
  Zpos (digits2_pos m1) = 53 -> Zpos (digits2_pos m2) = 53 ->
  -52 <= e1 <= 0 -> -52 <= e2 <= 0 ->
  exists (ms : positive) (es : Z),
    fdiv (S754_finite false m1 e1) (S754_finite false m2 e2) = S754_finite false ms es /\
    2 ^ 52 <= Zpos ms < 2 ^ 53 /\
    -105 <= es <= 1 /\
    (fval ms es <= fval m1 e1 / fval m2 e2 * (1 + eps))%R.
Proof.
  intros D1 D2 He1 He2.
  pose proof (proj2 (mantissa_digits m1) D1) as B1.
  pose proof (proj2 (mantissa_digits m2) D2) as B2.
  unfold fdiv, SFdiv, SFdiv_core_binary. cbn [Zdigits2 xorb].
  rewrite D1, D2, fexp64.
  replace (Z.min (Z.max (53 + e1 - (53 + e2) - 53) (-1074)) (e1 - e2)) with (e1 - e2 - 53) by lia.
  replace (e1 - e2 - (e1 - e2 - 53)) with 53 by lia. cbv iota.
  rewrite Z.shiftl_mul_pow2 by lia.
  pose proof (Z_div_mod (Zpos m1 * 2 ^ 53) (Zpos m2) eq_refl) as Hdm.
  destruct (Z.div_eucl (Zpos m1 * 2 ^ 53) (Zpos m2)) as [q r]. destruct Hdm as [Hq Hr].
  assert (E53 : 2 ^ 53 = 2 * 2 ^ 52) by reflexivity.
  assert (E54 : 2 ^ 54 = 4 * 2 ^ 52) by reflexivity.
  assert (P52 : 0 < 2 ^ 52) by reflexivity.
  assert (Bq : 2 ^ 52 <= q < 2 ^ 54) by nia.
  destruct q as [|pq|pq]; try lia.
  pose proof (digits_between pq 52 54 ltac:(lia) Bq) as Dq.
  destruct (binary_round_aux_upper_R pq (e1 - e2 - 53) (new_location (Zpos m2) r))
    as (ms & es & Hr' & Hms & Hes & Hle); try lia.
  exists ms, es. split; [exact Hr'|]. split; [exact Hms|]. split; [lia|].
  eapply Rle_trans; [exact Hle|].
  apply Rmult_le_compat_r; [unfold eps; lra|].
  pose proof (fval_pos m2 e2) as V2.
  apply Rmult_le_reg_r with (fval m2 e2); [exact V2|].
  replace (fval m1 e1 / fval m2 e2 * fval m2 e2)%R with (fval m1 e1) by (field; lra).
  unfold fval.
  assert (Hq' : (IZR (Zpos pq) * IZR (Zpos m2) <= IZR (Zpos m1) * p2 53)%R).
  { rewrite <- p2_IZR, <- !mult_IZR by lia. apply IZR_le. nia. }
  replace (e1 - e2 - 53) with (e1 + (- e2 + -53)) by lia.
  rewrite !p2_add.
  pose proof (p2_pos e1) as Pe1. pose proof (p2_opp e2) as Pe2. assert (P53 : (p2 53 * p2 (-53) = 1)%R) by exact (p2_opp 53).
  pose proof (p2_pos (-53)) as Pm53.
  set (Q := IZR (Zpos pq)) in *. set (A := IZR (Zpos m1)) in *. set (B := IZR (Zpos m2)) in *.
  set (a := p2 e1) in *. set (b := p2 e2) in *. set (b' := p2 (- e2)) in *.
  set (c := p2 53) in *. set (c' := p2 (-53)) in *.
  assert (G : ((Q * B) * (c' * a) <= (A * c) * (c' * a))%R).
  { apply Rmult_le_compat_r; [|exact Hq'].
    apply Rlt_le, Rmult_lt_0_compat; assumption. }
  replace (Q * (a * (b' * c')) * (B * b))%R with ((Q * B) * (c' * a) * (b * b'))%R by ring.
  replace (A * a)%R with ((A * c) * (c' * a))%R
    by (transitivity (A * a * (c * c'))%R; [ring|rewrite P53; ring]).
  rewrite Pe2. lra.
Qed.

(** The product of two normal numbers of moderate exponent. *)
Lemma fmul_upper (m1 m2 : positive) (e1 e2 : Z) :
  2 ^ 52 <= Zpos m1 < 2 ^ 53 -> 2 ^ 52 <= Zpos m2 < 2 ^ 53 ->
  -200 <= e1 <= 200 -> -200 <= e2 <= 200 ->
  exists (mp : positive) (ep : Z),
    fmul (S754_finite false m1 e1) (S754_finite false m2 e2) = S754_finite false mp ep /\
    (fval mp ep <= fval m1 e1 * fval m2 e2 * (1 + eps))%R.
Proof.
  intros B1 B2 He1 He2.
  unfold fmul, SFmul. cbn [xorb].
  assert (E53 : 2 ^ 53 = 2 * 2 ^ 52) by reflexivity.
  assert (E104 : 2 ^ 104 = 2 ^ 52 * 2 ^ 52) by reflexivity.
  assert (E106 : 2 ^ 106 = 4 * (2 ^ 52 * 2 ^ 52)) by reflexivity.
  assert (P52 : 0 < 2 ^ 52) by reflexivity.
  assert (Bm : 2 ^ 104 <= Zpos (m1 * m2) < 2 ^ 106) by (rewrite Pos2Z.inj_mul; nia).
  pose proof (digits_between (m1 * m2) 104 106 ltac:(lia) Bm) as Dm.
  destruct (binary_round_aux_upper_R (m1 * m2) (e1 + e2) loc_Exact)
    as (mp & ep & Hr & _ & _ & Hle); try lia.
  exists mp, ep. split; [exact Hr|].
  eapply Rle_trans; [exact Hle|]. apply Req_le.
  unfold fval. rewrite Pos2Z.inj_mul, mult_IZR, p2_add. ring.
Qed.

(** Conversion to [int] of a positive number below an integer bound. *)
Lemma int_of_float64_below (m : positive) (e : Z) (bound : Z) :
  (fval m e < IZR bound)%R -> bound <= 2 ^ 63 ->
  exists o : Z, int_of_float64 (S754_finite false m e) = Ok o /\ 0 <= o < bound.
Proof.
  intros Hv Hb. unfold int_of_float64.
  assert (Ht : 0 <= trunc_mag m e /\ (IZR (trunc_mag m e) <= fval m e)%R).
  { unfold trunc_mag, fval. destruct (Z.leb_spec 0 e) as [He|He].
    - split; [apply Z.mul_nonneg_nonneg; [lia|apply Z.pow_nonneg; lia]|].
      rewrite mult_IZR, p2_IZR by exact He. apply Rle_refl.
    - assert (Hp : 0 < 2 ^ (- e)) by (apply Z.pow_pos_nonneg; lia).
      split; [apply Z.div_pos; lia|].
      pose proof (Z.mul_div_le (Zpos m) (2 ^ (- e)) Hp) as Hd.
      apply IZR_le in Hd. rewrite mult_IZR, p2_IZR in Hd by lia.
      pose proof (p2_opp e) as Po. pose proof (p2_pos e) as Pe.
      pose proof (p2_pos (- e)) as Pne.
      apply Rmult_le_reg_r with (p2 (- e)); [exact Pne|].
      rewrite Rmult_assoc, Po. lra. }
  destruct Ht as [T0 TR].
  assert (T1 : trunc_mag m e < bound) by (apply lt_IZR; lra).
  exists (trunc_mag m e).
  unfold min_int, max_int.
  destruct (Z.leb_spec (- 2 ^ 63) (trunc_mag m e)); [|lia].
  destruct (Z.leb_spec (trunc_mag m e) (2 ^ 63 - 1)); [|lia].
  split; [reflexivity|lia].
Qed.

(** The source coordinate that [KNearestNeighbors] computes for the
    destination coordinate [x]: [int(float64(x) * (float64(src) /
    float64(dst)))] lies in the source, for dimensions below [2^48]. *)
Lemma source_coordinate_in_range (x src dst : Z) :
  0 <= x < dst -> 0 < src < 2 ^ 48 -> dst < 2 ^ 48 ->
  exists o : Z,
    int_of_float64
      (fmul (float64_of_int x) (fdiv (float64_of_int src) (float64_of_int dst))) = Ok o /\
    0 <= o < src.
Proof.
  intros Hx Hsrc Hdst.
  assert (P48 : 2 ^ 48 < 2 ^ 53) by reflexivity.
  destruct (float64_of_int_exact src) as (mw & ew & -> & Dw & Ew & Vw); [lia|].
  destruct (float64_of_int_exact dst) as (mn & en & -> & Dn & En & Vn); [lia|].
  destruct (fdiv_upper mw mn ew en Dw Dn Ew En) as (ms & es & -> & Bs & Es & Vs).
  rewrite Vw, Vn in Vs.
  destruct (Z.eq_dec x 0) as [->|Hx0].
  - exists 0. split; [reflexivity|lia].
  - destruct (float64_of_int_exact x) as (mx & ex & -> & Dx & Ex & Vx); [lia|].
    pose proof (proj2 (mantissa_digits mx) Dx) as Bx.
    destruct (fmul_upper mx ms ex es Bx Bs) as (mp & ep & -> & Vp); try lia.
    rewrite Vx in Vp.
    apply int_of_float64_below; [|lia].
    assert (HX : (0 < IZR x <= IZR dst - 1)%R).
    { split; [apply IZR_lt; lia|]. rewrite <- minus_IZR. apply IZR_le. lia. }
    assert (HN : (IZR dst < 281474976710656)%R) by (apply IZR_lt; exact Hdst).
    assert (HW : (0 < IZR src)%R) by (apply IZR_lt; lia).
    set (X := IZR x) in *. set (W := IZR src) in *. set (N := IZR dst) in *.
    set (S := fval ms es) in *.
    assert (HK : (0 < W / N)%R) by (apply Rdiv_lt_0_compat; lra).
    set (K := (W / N)%R) in *.
    assert (He : (0 < eps)%R) by (unfold eps; lra).
    assert (H1 : (X * S * (1 + eps) <= X * (K * (1 + eps)) * (1 + eps))%R).
    { apply Rmult_le_compat_r; [lra|]. apply Rmult_le_compat_l; lra. }
    assert (H2 : (X * ((1 + eps) * (1 + eps)) < N)%R) by (unfold eps; lra).
    assert (H3 : (K * (X * ((1 + eps) * (1 + eps))) < K * N)%R)
      by (apply Rmult_lt_compat_l; assumption).
    assert (H4 : (K * N = W)%R) by (unfold K; field; lra).
    replace (X * (K * (1 + eps)) * (1 + eps))%R
      with (K * (X * ((1 + eps) * (1 + eps))))%R in H1 by ring.
    lra.
Qed.

(** ** Resize of a buffer of one colour *)

Lemma wrap64_small (z : Z) : - 2 ^ 63 <= z < 2 ^ 63 -> wrap64 z = z.
Proof. intros H. unfold wrap64. rewrite Z.mod_small; lia. Qed.

Lemma uint8_u8 (b : byte) : uint8 (u8 b) = b.
Proof. destruct b; reflexivity. Qed.

Lemma u8_range (b : byte) : 0 <= u8 b <= 255.
Proof. unfold u8. pose proof (Byte.to_N_bounded b). lia. Qed.

Lemma fold_add_repeat (f : Pixel -> Z) (c : Pixel) (k : nat) (acc : Z) :
  0 <= f c <= 255 -> 0 <= acc -> acc + Z.of_nat k * 255 < 2 ^ 63 ->
  fold_left (fun t p => t +! f p) (repeat c k) acc = acc + Z.of_nat k * f c.
Proof.
  intros Hf. revert acc. induction k as [|k IH]; intros acc Hacc Hb.
  - simpl. lia.
  - cbn [repeat fold_left]. unfold add64 at 2. rewrite wrap64_small by lia.
    rewrite IH by lia. lia.
Qed.

Lemma averageColors_repeat (c : Pixel) (k : nat) :
  (1 <= k <= 9)%nat -> averageColors (repeat c k) = Ok c.
Proof.
  intros Hk. unfold averageColors, len. rewrite repeat_length.
  destruct (Z.eqb_spec (Z.of_nat k) 0); [lia|].
  pose proof (u8_range (R c)). pose proof (u8_range (G c)). pose proof (u8_range (B c)).
  rewrite !fold_add_repeat by lia. unfold quot64.
  rewrite !Z.add_0_l, !(Z.mul_comm (Z.of_nat k)), !Z.quot_mul by lia.
  rewrite !wrap64_small by lia. rewrite !uint8_u8.
  destruct c; reflexivity.
Qed.

Lemma get2_uniform (ppm : PPM) (c : Pixel) (x y : Z) :
  shape_ok ppm -> uniform (data ppm) c -> in_canvas ppm x y ->
  get2 (data ppm) y x = Ok c.
Proof.
  intros Hs Hu Hin.
  destruct (shape_pixel ppm x y Hs Hin) as (row & p & Hrow & _ & Hp).
  destruct Hin as [Hx Hy].
  rewrite <- (Z2Nat.id y), <- (Z2Nat.id x) by lia.
  replace c with p; [eapply get2_nth_error; eassumption|].
  unfold uniform in Hu. rewrite Forall_forall in Hu.
  specialize (Hu row (nth_error_In _ _ Hrow)). rewrite Forall_forall in Hu.
  apply Hu. eapply nth_error_In, Hp.
Qed.

Lemma onCanvas_le_1 (ppm : PPM) (nx ny : Z) : (onCanvas ppm nx ny <= 1)%nat.
Proof. unfold onCanvas. destruct (_ && _); lia. Qed.

Lemma onCanvas_in (ppm : PPM) (x y : Z) : in_canvas ppm x y -> onCanvas ppm x y = 1%nat.
Proof.
  intros [Hx Hy]. unfold onCanvas.
  destruct (Z.leb_spec 0 x); [|lia]. destruct (Z.ltb_spec x (width ppm)); [|lia].
  destruct (Z.leb_spec 0 y); [|lia]. destruct (Z.ltb_spec y (height ppm)); [|lia].
  reflexivity.
Qed.

Lemma visitNeighbor_uniform (ppm : PPM) (c : Pixel) (x y dy dx : Z) (k : nat) :
  shape_ok ppm -> uniform (data ppm) c ->
  - 2 ^ 62 <= x <= 2 ^ 62 -> - 2 ^ 62 <= y <= 2 ^ 62 ->
  -1 <= dx <= 1 -> -1 <= dy <= 1 ->
  visitNeighbor ppm x y dy dx (repeat c k) =
  Ok (repeat c (k + onCanvas ppm (x + dx) (y + dy))).
Proof.
  intros Hs Hu Hx Hy Hdx Hdy. unfold visitNeighbor, onCanvas, add64.
  rewrite !wrap64_small by lia.
  destruct (Z.leb_spec 0 (x + dx)); cbn [andb];
    [|rewrite Nat.add_0_r; reflexivity].
  destruct (Z.ltb_spec (x + dx) (width ppm)); cbn [andb];
    [|rewrite Nat.add_0_r; reflexivity].
  destruct (Z.leb_spec 0 (y + dy)); cbn [andb];
    [|rewrite Nat.add_0_r; reflexivity].
  destruct (Z.ltb_spec (y + dy) (height ppm));
    [|rewrite Nat.add_0_r; reflexivity].
  rewrite (get2_uniform ppm c) by (assumption || (unfold in_canvas; lia)).
  cbn [bind]. rewrite repeat_app. reflexivity.
Qed.

Lemma findKNearestNeighbors_uniform (ppm : PPM) (c : Pixel) (x y : Z) :
  shape_ok ppm -> uniform (data ppm) c ->
  in_canvas ppm x y -> width ppm <= 2 ^ 62 -> height ppm <= 2 ^ 62 ->
  exists k : nat, (1 <= k <= 9)%nat /\ findKNearestNeighbors ppm x y = Ok (repeat c k).
Proof.
  intros Hs Hu Hin Hw Hh. pose proof Hin as [Hx Hy].
  unfold findKNearestNeighbors, for_range.
  change (Z.to_nat (2 - -1)) with 3%nat. cbn [for_loop].
  change (@nil Pixel) with (repeat c 0).
  repeat (rewrite (visitNeighbor_uniform ppm c) by (assumption || lia); cbn [bind]).
  eexists. split; [|reflexivity].
  replace (x + (-1 + 1)) with x by lia. replace (y + (-1 + 1)) with y by lia.
  rewrite (onCanvas_in ppm x y Hin).
  pose proof (onCanvas_le_1 ppm (x + -1) (y + -1)).
  pose proof (onCanvas_le_1 ppm x (y + -1)).
  pose proof (onCanvas_le_1 ppm (x + (-1 + 1 + 1)) (y + -1)).
  pose proof (onCanvas_le_1 ppm (x + -1) y).
  pose proof (onCanvas_le_1 ppm (x + (-1 + 1 + 1)) y).
  pose proof (onCanvas_le_1 ppm (x + -1) (y + (-1 + 1 + 1))).
  pose proof (onCanvas_le_1 ppm x (y + (-1 + 1 + 1))).
  pose proof (onCanvas_le_1 ppm (x + (-1 + 1 + 1)) (y + (-1 + 1 + 1))).
  lia.
Qed.

Lemma makeGrid_rows (w h : nat) :
  makeGrid (Z.of_nat w) (Z.of_nat h) = Ok (repeat (repeat zeroPixel w) h).
Proof.
  unfold makeGrid, make.
  destruct (Z.ltb_spec (Z.of_nat h) 0); [lia|]. cbn [bind].
  destruct (Z.ltb_spec (Z.of_nat w) 0); [lia|]. rewrite !Nat2Z.id.
  set (old := repeat (@nil Pixel) h). set (new := repeat (repeat zeroPixel w) h).
  assert (Hlen : List.length new = List.length old)
    by (unfold new, old; rewrite !repeat_length; reflexivity).
  assert (Hh : List.length old = h) by apply repeat_length.
  unfold len. rewrite <- (mix_0 new old) at 2. rewrite <- (mix_all new old Hlen).
  apply (for_range_states _ (fun i => mix i new old)). intros i Hi.
  cbn [bind]. rewrite store_in_range by (rewrite length_mix by exact Hlen; exact Hi).
  rewrite update_mix; [reflexivity|exact Hlen|].
  unfold new. apply nth_error_repeat. lia.
Qed.

(** C8. A well-formed buffer whose pixels all have the colour [c],
    resized to positive dimensions, is a buffer of the new dimensions
    whose pixels all have the colour [c]: every source coordinate lies on
    the canvas, so the neighbourhood holds between one and nine pixels,
    all [c], and their truncated average is [c]. The dimensions are those
    of slices that can exist, below [maxAlloc]. *)
Theorem KNearestNeighbors_uniform :
  forall (ppm : PPM) (c : Pixel) (newWidth newHeight : Z),
    wf ppm -> uniform (data ppm) c ->
    width ppm < maxAlloc -> height ppm < maxAlloc ->
    0 < newWidth < maxAlloc -> 0 < newHeight < maxAlloc ->
    KNearestNeighbors ppm newWidth newHeight =
    Ok (mkPPM (repeat (repeat c (Z.to_nat newWidth)) (Z.to_nat newHeight))
              newWidth newHeight (magicNumber ppm) (max ppm), []).
Proof.
  intros ppm c nw nh (Hs & Hw0 & Hh0) Hu Hw Hh Hnw Hnh. unfold maxAlloc in *.
  assert (P48 : 2 ^ 48 < 2 ^ 62) by reflexivity.
  assert (Ew : exists w', nw = Z.of_nat w') by (exists (Z.to_nat nw); lia).
  assert (Eh : exists h', nh = Z.of_nat h') by (exists (Z.to_nat nh); lia).
  destruct Ew as [w' ->]. destruct Eh as [h' ->]. rewrite !Nat2Z.id.
  unfold KNearestNeighbors.
  destruct (Z.leb_spec (Z.of_nat w') 0); [lia|].
  destruct (Z.leb_spec (Z.of_nat h') 0); [lia|]. cbn [orb].
  rewrite makeGrid_rows. cbn [bind].
  set (d0 := repeat (repeat zeroPixel w') h').
  assert (Hd0 : len d0 = Z.of_nat h') by (unfold len, d0; rewrite repeat_length; reflexivity).
  match goal with
  | |- context [for_range 0 (Z.of_nat h') ?b d0] => set (rows := b)
  end.
  assert (Hloop : for_range 0 (Z.of_nat h') rows d0 = Ok (map (map (fun _ => c)) d0)).
  { rewrite <- Hd0. apply grid_loop. intros y d' row Hrow Hrow'.
    assert (Hy : (y < h')%nat).
    { assert (y < List.length d0)%nat by (apply nth_error_Some; congruence).
      unfold d0 in *. rewrite repeat_length in *. assumption. }
    assert (Er : row = repeat zeroPixel w')
      by (apply nth_error_In in Hrow; apply repeat_spec in Hrow; exact Hrow).
    assert (Hrl : len row = Z.of_nat w')
      by (rewrite Er; unfold len; rewrite repeat_length; reflexivity).
    unfold rows.
    match goal with
    | |- for_range 0 (Z.of_nat w') ?b d' = _ => set (columns := b)
    end.
    rewrite <- Hrl. apply row_loop; [exact Hrow'|].
    intros x d'' p Hp _. unfold columns.
    assert (Hx : (x < w')%nat).
    { assert (x < List.length row)%nat by (apply nth_error_Some; congruence).
      unfold len in Hrl. lia. }
    destruct (source_coordinate_in_range (Z.of_nat x) (width ppm) (Z.of_nat w'))
      as (ox & -> & Hox); try lia.
    destruct (source_coordinate_in_range (Z.of_nat y) (height ppm) (Z.of_nat h'))
      as (oy & -> & Hoy); try lia.
    cbn [bind].
    destruct (findKNearestNeighbors_uniform ppm c ox oy Hs Hu) as (k & Hk & ->);
      [split; assumption|lia|lia|].
    cbn [bind]. rewrite averageColors_repeat by exact Hk. reflexivity. }
  rewrite Hloop. cbn [bind]. unfold d0. rewrite map_repeat, map_repeat. reflexivity.
Qed.

Lemma solid_wf (magic : list byte) (w h : nat) (c : Pixel) :
  (0 < w)%nat -> (0 < h)%nat -> wf (solid magic w h c).
Proof.
  intros Hw Hh. split; [apply solid_shape_ok|]. simpl. lia.
Qed.

Lemma solid_uniform (magic : list byte) (w h : nat) (c : Pixel) :
  uniform (data (solid magic w h c)) c.
Proof.
  unfold uniform, solid; simpl.
  apply Forall_forall. intros row Hr. apply repeat_spec in Hr. subst row.
  apply Forall_forall. intros p Hp. apply repeat_spec in Hp. exact Hp.
Qed.

Lemma KNearestNeighbors_uniform_witness :
  wf (solid (lit "P6") 2 2 red) /\
  uniform (data (solid (lit "P6") 2 2 red)) red /\
  KNearestNeighbors (solid (lit "P6") 2 2 red) 3 5 = Ok (solid (lit "P6") 3 5 red, []).
Proof.
  assert (Hwf : wf (solid (lit "P6") 2 2 red)) by (apply solid_wf; lia).
  assert (Hu : uniform (data (solid (lit "P6") 2 2 red)) red) by apply solid_uniform.
  split; [exact Hwf|]. split; [exact Hu|].
  apply (KNearestNeighbors_uniform (solid (lit "P6") 2 2 red) red 3 5 Hwf Hu);
    unfold maxAlloc; simpl; lia.
Defined.
